(** * ShipShape: the EDI extractor of [src/ShipShape.py]

    A shallow embedding of [EDIExtractor] (extraction of delivery id,
    product/service id and serial number from tag-delimited text, and the
    CSV export) together with the part of [EDIExtractorApp.save_to_csv]
    that prepares the output directory.

    Representation choices.
    - A Python [str] is a [list ascii]: the UTF-8 code units of the text.
      Every character the program looks at (the tag literals, the newline
      excluded by [.], the CSV delimiter, quote and line terminator) is
      ASCII, and an ASCII code unit never occurs inside a multi-byte UTF-8
      sequence, so matching on code units and on code points agree.
    - A dict with the three keys ['delivery_id'], ['product_service_id'],
      ['serial_number'] is a record with three fields.
    - Exceptions are values of an error monad [result].
    - The file system is an explicit state (a finite map from paths to
      nodes) threaded through the operations that touch it. *)

From Stdlib Require Import Ascii String.
From stdpp Require Import base option list strings gmap.
From Equations Require Import Equations.
From Equations.Prop Require Import Logic.

Set Default Proof Using "Type".
Open Scope list_scope.

(** ** Python strings *)

Abbreviation str := (list ascii).

(** String literals of the source are written [$"..."]. *)
Notation "$ s" := (list_ascii_of_string s%string) (at level 1, format "$ s").

Definition newline : ascii := "010"%char.
Definition carriage_return : ascii := "013"%char.
Definition comma : ascii := ","%char.
Definition dquote : ascii := "034"%char.

(** ** Exceptions and the error monad *)

Inductive exn_class :=
| ExceptionClass
| IndexError
| FileNotFoundError
| FileExistsError
| NotADirectoryError
| IsADirectoryError
| PermissionError
| UnicodeDecodeError.

(** An exception object: its class, [str(e)], and the exception that was
    being handled when it was raised ([__context__]). *)
Inductive exn :=
| Exn (cls : exn_class) (msg : str)
| ExnDuring (cls : exn_class) (msg : str) (context : exn).

Definition exn_cls (e : exn) : exn_class :=
  match e with Exn c _ | ExnDuring c _ _ => c end.
Definition exn_str (e : exn) : str :=
  match e with Exn _ m | ExnDuring _ m _ => m end.
Definition exn_context (e : exn) : option exn :=
  match e with Exn _ _ => None | ExnDuring _ _ c => Some c end.

Inductive result (A : Type) :=
| Ok (a : A)
| Raise (e : exn).
Arguments Ok {A} a.
Arguments Raise {A} e.

Definition bind {A B} (k : A -> result B) (m : result A) : result B :=
  match m with
  | Ok a => k a
  | Raise e => Raise e
  end.

(** The monad notations [x ← m; k] and ['(x, y) ← m; k] are stdpp's. *)
#[global] Instance result_ret : MRet result := @Ok.
#[global] Instance result_bind : MBind result := @bind.

(** [try: m except Exception as e: h e] *)
Definition try_except {A} (m : result A) (h : exn -> result A) : result A :=
  match m with
  | Ok a => Ok a
  | Raise e => h e
  end.

(** A [for] loop whose body updates a state and may raise. *)
Fixpoint for_each {S X} (body : S -> X -> result S) (xs : list X) (st : S)
  : result S :=
  match xs with
  | [] => Ok st
  | x :: xs' => st' ← body st x; for_each body xs' st'
  end.

(** ** The regular expressions of [extract_data]

    The five patterns of the source all have the shape
    [<T>(X*?)</T>] for a tag name [T], where [X] is [[\s\S]] (any
    character) or [.] (any character but a newline). *)

Module Re.

Record pattern := Pattern { p_tag : str; p_dotall : bool }.

Definition open_lit (p : pattern) : str := $"<" ++ p_tag p ++ $">".
Definition close_lit (p : pattern) : str := $"</" ++ p_tag p ++ $">".

(** The character class of the group: [[\s\S]] or [.]. *)
Definition class_ok (dotall : bool) (c : ascii) : bool :=
  dotall || negb (Ascii.eqb c newline).

(** Matching a literal at the current position: the rest of the subject
    after the literal. *)
Fixpoint strip_prefix (lit s : str) : option str :=
  match lit, s with
  | [], _ => Some s
  | a :: lit', b :: s' => if Ascii.eqb a b then strip_prefix lit' s' else None
  | _ :: _, [] => None
  end.

(** [(X*?)close] at the current position: the lazy star first tries the
    closing literal and consumes one more character of the class only when
    that fails.  Returns group 1 and the rest after the closing literal. *)
Fixpoint lazy_star (dotall : bool) (close : str) (s : str)
  : option (str * str) :=
  match strip_prefix close s with
  | Some rest => Some ([], rest)
  | None =>
      match s with
      | [] => None
      | c :: s' =>
          if class_ok dotall c then
            match lazy_star dotall close s' with
            | Some (g, rest) => Some (c :: g, rest)
            | None => None
            end
          else None
      end
  end.

(** The whole pattern at the current position. *)
Definition match_here (p : pattern) (s : str) : option (str * str) :=
  match strip_prefix (open_lit p) s with
  | Some body => lazy_star (p_dotall p) (close_lit p) body
  | None => None
  end.

(** A match object: [start()], [end()] and the groups, group 0 first. *)
Record Match := MkMatch { m_start : nat; m_end : nat; m_groups : list str }.

Definition group (m : Match) (i : nat) : result str :=
  match m_groups m !! i with
  | Some g => Ok g
  | None => Raise (Exn IndexError $"no such group")
  end.

(** Leftmost match at or after position [pos]; [s] is the subject from
    [pos] on. *)
Fixpoint search_from (p : pattern) (pos : nat) (s : str) : option Match :=
  match match_here p s with
  | Some (g, rest) =>
      let len := length s - length rest in
      Some (MkMatch pos (pos + len) [take len s; g])
  | None =>
      match s with
      | [] => None
      | _ :: s' => search_from p (S pos) s'
      end
  end.

(** [re.search(p, s)] *)
Definition search (p : pattern) (s : str) : option Match := search_from p 0 s.

Lemma strip_prefix_length lit s rest :
  strip_prefix lit s = Some rest -> length s = length lit + length rest.
Proof.
  revert s; induction lit as [|a lit IH]; intros [|b s]; simpl; try congruence.
  - intros [= <-]. reflexivity.
  - intros [= <-]. reflexivity.
  - destruct (Ascii.eqb a b); [|congruence]. intros H%IH. lia.
Qed.

Lemma lazy_star_length dotall close s g rest :
  lazy_star dotall close s = Some (g, rest) ->
  length s = length g + length close + length rest.
Proof.
  revert g; induction s as [|c s IH]; intros g; simpl.
  - destruct (strip_prefix close []) eqn:E; [|congruence].
    intros [= <- <-]. apply strip_prefix_length in E. simpl in *. lia.
  - destruct (strip_prefix close (c :: s)) eqn:E.
    + intros [= <- <-]. apply strip_prefix_length in E. simpl in *. lia.
    + destruct (class_ok dotall c); [|congruence].
      destruct (lazy_star dotall close s) as [[g' r']|]; [|congruence].
      intros [= <- <-]. specialize (IH _ eq_refl). simpl. lia.
Qed.

Lemma match_here_length p s g rest :
  match_here p s = Some (g, rest) ->
  length s = length (open_lit p) + length g + length (close_lit p) + length rest.
Proof.
  unfold match_here. destruct (strip_prefix (open_lit p) s) as [body|] eqn:E;
    [|congruence].
  intros H%lazy_star_length. apply strip_prefix_length in E. lia.
Qed.

Lemma search_from_bounds p pos s m :
  search_from p pos s = Some m ->
  pos <= m_start m /\ m_start m < m_end m /\ m_end m <= pos + length s.
Proof.
  revert pos; induction s as [|c s IH]; intros pos; simpl.
  - destruct (match_here p []) as [[g rest]|] eqn:E; [|congruence].
    apply match_here_length in E. unfold open_lit in E.
    rewrite !length_app in E. simpl in E. lia.
  - destruct (match_here p (c :: s)) as [[g rest]|] eqn:E.
    + intros [= <-]. apply match_here_length in E. unfold open_lit in E.
      rewrite !length_app in E. simpl in *. lia.
    + intros H%IH. lia.
Qed.

(** [p.finditer(s)]: the successive non-overlapping matches, each search
    resuming where the previous match ended.  [s] is the subject from
    [pos] on. *)
Equations? finditer_from (p : pattern) (pos : nat) (s : str) : list Match
  by wf (length s) lt :=
  finditer_from p pos s with inspect (search_from p pos s) := {
    | exist _ (Some m) H => m :: finditer_from p (m_end m) (drop (m_end m - pos) s)
    | exist _ None _ => []
  }.
Proof.
  apply search_from_bounds in H. rewrite length_drop. lia.
Qed.

Definition finditer (p : pattern) (s : str) : list Match := finditer_from p 0 s.

End Re.

(** ** [EDIExtractor.extract_data] *)

Module EDIExtractor.
Import Re.

(** One extracted row: the dict built at lines 78-82 and 86-90. *)
Record record := Record_ {
  delivery_id : str;
  product_service_id : str;
  serial_number : str
}.

(** [r'<ShipConfirmLine>([\s\S]*?)</ShipConfirmLine>'] *)
Definition ship_confirm_pattern : pattern := Pattern $"ShipConfirmLine" true.
(** [r'<delivery_id>(.*?)</delivery_id>'] *)
Definition delivery_id_pattern : pattern := Pattern $"delivery_id" false.
(** [r'<ProductServiceId>(.*?)</ProductServiceId>'] *)
Definition product_id_pattern : pattern := Pattern $"ProductServiceId" false.
(** [r'<ShipConfirmSerials>([\s\S]*?)</ShipConfirmSerials>'] *)
Definition serials_pattern : pattern := Pattern $"ShipConfirmSerials" true.
(** [r'<serial_number>(.*?)</serial_number>'] *)
Definition serial_number_pattern : pattern := Pattern $"serial_number" false.

(** [m.group(1) if m else ''] *)
Definition group1_or_empty (m : option Match) : result str :=
  match m with
  | Some m' => group m' 1
  | None => Ok []
  end.

(** Body of the inner loop (lines 70-82); the state is [results] and
    [serials_found]. *)
Definition serials_body (delivery_id product_service_id : str)
    (st : list record * bool) (serials_match : Match)
  : result (list record * bool) :=
  let '(results, _) := st in
  serials_block ← group serials_match 1;
  let serial_match := search serial_number_pattern serials_block in
  serial_number ← group1_or_empty serial_match;
  Ok (results ++ [Record_ delivery_id product_service_id serial_number], true).

(** Body of the outer loop (lines 55-90); the state is [results]. *)
Definition line_body (results : list record) (match_ : Match)
  : result (list record) :=
  line_block ← group match_ 1;
  let delivery_id_match := search delivery_id_pattern line_block in
  delivery_id ← group1_or_empty delivery_id_match;
  let product_id_match := search product_id_pattern line_block in
  product_service_id ← group1_or_empty product_id_match;
  '(results, serials_found) ←
    for_each (serials_body delivery_id product_service_id)
             (finditer serials_pattern line_block) (results, false);
  if negb serials_found
  then Ok (results ++ [Record_ delivery_id product_service_id []])
  else Ok results.

Definition extract_data (content : str) : result (list record) :=
  for_each line_body (finditer ship_confirm_pattern content) [].

(** [extract_from_file] (lines 33-38). *)
Section extract_from_file.

(** [open(filename, 'r', encoding='utf-8')] followed by [file.read()]:
    the text of the file, or the exception raised by the runtime when
    the file cannot be opened, read or decoded. *)
Variable read_text : str -> result str.

Definition extract_from_file (filename : str) : result (list record) :=
  try_except
    (content ← read_text filename; extract_data content)
    (fun e =>
       Raise (ExnDuring ExceptionClass
                ($"Error processing file " ++ filename ++ $": " ++ exn_str e)
                e)).

End extract_from_file.

End EDIExtractor.

(** ** The file system

    A path is the list of its components, relative to a fixed starting
    directory (the empty path), which always exists.  Paths are taken
    normalised: no empty, [.] or [..] component.  Permissions are not
    modelled. *)

Module Fs.

Abbreviation path := (list string).

Inductive node :=
| Dir
| File (text : str).

Abbreviation fs := (gmap path node).

(** An operation on the file system: it may change the state and may
    raise; a raised exception keeps the changes made before it. *)
Definition io (A : Type) : Type := fs -> fs * result A.

Definition io_ret {A} (a : A) : io A := fun σ => (σ, Ok a).
Definition io_raise {A} (e : exn) : io A := fun σ => (σ, Raise e).
Definition io_bind {A B} (k : A -> io B) (m : io A) : io B :=
  fun σ => match m σ with
           | (σ', Ok a) => k a σ'
           | (σ', Raise e) => (σ', Raise e)
           end.
Definition io_try {A} (m : io A) (h : exn -> io A) : io A :=
  fun σ => match m σ with
           | (σ', Ok a) => (σ', Ok a)
           | (σ', Raise e) => h e σ'
           end.

#[global] Instance io_mret : MRet io := @io_ret.
#[global] Instance io_mbind : MBind io := @io_bind.

Definition stat (p : path) (σ : fs) : option node :=
  match p with
  | [] => Some Dir
  | _ => σ !! p
  end.

(** [os.path.exists] *)
Definition exists_ (p : path) : io bool :=
  fun σ => (σ, Ok (bool_decide (is_Some (stat p σ)))).

(** [os.path.dirname] *)
Definition dirname (p : path) : path := removelast p.

Definition os_error (cls : exn_class) : exn := Exn cls [].

(** [os.mkdir] *)
Definition mkdir (p : path) : io unit :=
  fun σ =>
    match stat p σ with
    | Some _ => (σ, Raise (os_error FileExistsError))
    | None =>
        match stat (dirname p) σ with
        | None => (σ, Raise (os_error FileNotFoundError))
        | Some (File _) => (σ, Raise (os_error NotADirectoryError))
        | Some Dir => (<[p := Dir]> σ, Ok ())
        end
    end.

(** [except FileExistsError: pass] *)
Definition ignore_exists (e : exn) : io unit :=
  match exn_cls e with
  | FileExistsError => io_ret ()
  | _ => io_raise e
  end.

(** [os.makedirs(name)] with [exist_ok=False]: create the missing
    ancestors first (a [FileExistsError] there is ignored), then the leaf.
    The recursion of the library is on [os.path.split(name)[0]], here the
    path without its last component; [rp] is the path reversed. *)
Fixpoint makedirs_rev (rp : list string) : io unit :=
  match rp with
  | [] => mkdir []
  | tail :: rhead =>
      head_exists ← exists_ (rev rhead);
      _ ← (if bool_decide (rhead ≠ []) && negb head_exists
           then io_try (makedirs_rev rhead) ignore_exists
           else io_ret ());
      mkdir (rev (tail :: rhead))
  end.

Definition makedirs (name : path) : io unit := makedirs_rev (rev name).

(** [with open(p, 'w', newline='', encoding='utf-8') as f: f.write(text)]:
    opening creates or truncates the file and fails when the parent is
    not an existing directory or [p] is a directory. *)
Definition write_text (p : path) (text : str) : io unit :=
  fun σ =>
    match stat (dirname p) σ with
    | None => (σ, Raise (os_error FileNotFoundError))
    | Some (File _) => (σ, Raise (os_error NotADirectoryError))
    | Some Dir =>
        match stat p σ with
        | Some Dir => (σ, Raise (os_error IsADirectoryError))
        | _ => (<[p := File text]> σ, Ok ())
        end
    end.

(** Every node other than the starting directory sits in a directory. *)
Definition tree (σ : fs) : Prop :=
  ∀ p x, is_Some (σ !! (p ++ [x])) → stat p σ = Some Dir.


End Fs.

(** ** The [csv] writer with the dialect of [save_to_csv]

    [delimiter=','], the double quote as [quotechar],
    [quoting=csv.QUOTE_MINIMAL] and the
    defaults [doublequote=True], [escapechar=None],
    [lineterminator='\r\n']. *)

Module Csv.

Definition lineterminator : str := [carriage_return; newline].

(** A character that forces the field to be quoted: the delimiter, the
    quote character, or a character of the line terminator. *)
Definition special (c : ascii) : bool :=
  Ascii.eqb c comma || Ascii.eqb c dquote
  || Ascii.eqb c carriage_return || Ascii.eqb c newline.

(** The field's characters with every quote character doubled. *)
Fixpoint escape (f : str) : str :=
  match f with
  | [] => []
  | c :: f' => if Ascii.eqb c dquote then dquote :: dquote :: escape f'
               else c :: escape f'
  end.

Definition write_field (f : str) : str :=
  if existsb special f then dquote :: escape f ++ [dquote] else escape f.

Fixpoint join (fields : list str) : str :=
  match fields with
  | [] => []
  | [f] => write_field f
  | f :: fields' => write_field f ++ comma :: join fields'
  end.

(** [writer.writerow]: a row made of one empty field is written as a pair
    of quotes. *)
Definition writerow (fields : list str) : str :=
  match fields with
  | [[]] => [dquote; dquote] ++ lineterminator
  | _ => join fields ++ lineterminator
  end.

End Csv.

(** ** [EDIExtractor.save_to_csv] *)

Module Export Save.
Import Fs Csv EDIExtractor.

Definition fieldnames : list str :=
  [$"delivery_id"; $"product_service_id"; $"serial_number"].

(** [DictWriter._dict_to_list]: the values of the row in the order of
    [fieldnames]. *)
Definition dict_to_list (r : record) : list str :=
  [delivery_id r; product_service_id r; serial_number r].

(** What [writeheader] followed by [writerows] puts in the file. *)
Definition csv_text (results : list record) : str :=
  writerow fieldnames ++ concat (map (fun r => writerow (dict_to_list r)) results).

Definition save_to_csv (results : list record) (output_file : path) : io unit :=
  write_text output_file (csv_text results).

End Save.

(** ** [EDIExtractorApp.save_to_csv]

    The window keeps [results] and the output path; the message boxes and
    the status line are returned as the outcome. *)

Module EDIExtractorApp.
Import Fs EDIExtractor.

Inductive outcome :=
| NoData
| NoOutputFile
| SavedTo (output_file : path)
| FailedToSave (e : exn).

Definition save_to_csv (results : list record) (output_file : path)
  : fs -> fs * outcome :=
  fun σ =>
    if bool_decide (results = []) then (σ, NoData)
    else if bool_decide (output_file = []) then (σ, NoOutputFile)
    else
      let body : io unit :=
        let output_dir := dirname output_file in
        dir_exists ← exists_ output_dir;
        _ ← (if bool_decide (output_dir ≠ []) && negb dir_exists
             then makedirs output_dir
             else io_ret ());
        Save.save_to_csv results output_file in
      match body σ with
      | (σ', Ok _) => (σ', SavedTo output_file)
      | (σ', Raise e) => (σ', FailedToSave e)
      end.

End EDIExtractorApp.

(** ** Reading the table back

    Modelled from the spec: the re-parsing of the produced file in the
    round-trip property (section 8) is not part of the source.  The reader
    below is the one the spec's output format (section 6) calls for, with
    the same dialect as the writer: comma-delimited, a field that starts
    with a quote runs to the closing quote, a doubled quote inside it is
    one quote character, and a record ends at CRLF, LF or CR. *)

Module CsvReader.

Inductive state :=
| StartRecord
| StartField
| InField
| InQuotedField
| QuoteInQuotedField
| AfterCR.

Record reader := Reader {
  rows : list (list str);
  fields : list str;
  field : str;
  st : state
}.

Definition init : reader := Reader [] [] [] StartRecord.

Definition add_char (r : reader) (c : ascii) (s : state) : reader :=
  Reader (rows r) (fields r) (field r ++ [c]) s.

Definition save_field (r : reader) : reader :=
  Reader (rows r) (fields r ++ [field r]) [] StartField.

(** The record ends at the line terminator [c]. *)
Definition end_record (r : reader) (c : ascii) : reader :=
  Reader (rows r ++ [fields r]) [] []
         (if Ascii.eqb c carriage_return then AfterCR else StartRecord).

Definition is_eol (c : ascii) : bool :=
  Ascii.eqb c carriage_return || Ascii.eqb c newline.

Definition start_field (r : reader) (c : ascii) : reader :=
  if is_eol c then end_record (save_field r) c
  else if Ascii.eqb c dquote then
    Reader (rows r) (fields r) (field r) InQuotedField
  else if Ascii.eqb c comma then save_field r
  else add_char r c InField.

Definition start_record (r : reader) (c : ascii) : reader :=
  if is_eol c then end_record r c else start_field r c.

Definition step (r : reader) (c : ascii) : reader :=
  match st r with
  | StartRecord => start_record r c
  | AfterCR =>
      if Ascii.eqb c newline
      then Reader (rows r) (fields r) (field r) StartRecord
      else start_record r c
  | StartField => start_field r c
  | InField =>
      if is_eol c then end_record (save_field r) c
      else if Ascii.eqb c comma then save_field r
      else add_char r c InField
  | InQuotedField =>
      if Ascii.eqb c dquote
      then Reader (rows r) (fields r) (field r) QuoteInQuotedField
      else add_char r c InQuotedField
  | QuoteInQuotedField =>
      if Ascii.eqb c dquote then add_char r c InQuotedField
      else if Ascii.eqb c comma then save_field r
      else if is_eol c then end_record (save_field r) c
      else add_char r c InField
  end.

(** At the end of the text a record that was begun is closed. *)
Definition finish (r : reader) : list (list str) :=
  match st r with
  | StartRecord | AfterCR => rows r
  | _ => rows r ++ [fields r ++ [field r]]
  end.

(** The reader after the characters of [text]. *)
Definition run (r : reader) (text : str) : reader := fold_left step text r.

Definition read (text : str) : list (list str) := finish (run init text).

(** The state at the start of a field: after a delimiter, or at the start
    of a record. *)
Definition at_start (s : state) : Prop := s = StartField ∨ s = StartRecord.

End CsvReader.

(** ** Vocabulary of the specification *)

Module Spec.
Import Re EDIExtractor.

(** [s.find(lit)]: the index of the first occurrence of [lit] in [s]. *)
Fixpoint find_lit (lit s : str) : option nat :=
  match strip_prefix lit s with
  | Some _ => Some 0
  | None =>
      match s with
      | [] => None
      | _ :: s' => S <$> find_lit lit s'
      end
  end.

(** [lit] occurs in [x ++ lit] at the end and nowhere before. *)
Definition only_at_end (lit x : str) : Prop :=
  ∀ a b, x ++ lit = a ++ lit ++ b → a = x.

(** [s] contains an opening tag of [p] followed, somewhere, by a closing
    tag of [p]. *)
Definition has_pair (p : pattern) (s : str) : Prop :=
  ∃ a g c, s = a ++ open_lit p ++ g ++ close_lit p ++ c.

(** The successive tag pairs of [p] in a document, left to right: each
    pair opens at the first opening tag after the previous pair and closes
    at the first closing tag after that; the list holds the enclosed
    texts in document order.  This is the reading of the line-group and of
    the serial-group pairs, whose enclosed text is unrestricted. *)
Inductive spans (p : pattern) : str → list str → Prop :=
| spans_nil s :
    ¬ has_pair p s → spans p s []
| spans_cons junk g rest gs :
    only_at_end (open_lit p) junk →
    only_at_end (close_lit p) g →
    spans p rest gs →
    spans p (junk ++ open_lit p ++ g ++ close_lit p ++ rest) (g :: gs).

(** Group 1 of a match. *)
Definition group1 (m : Match) : str := default [] (m_groups m !! 1).

(** The text the extractor takes for a leaf tag in a block: group 1 of
    the first match, the empty string without a match. *)
Definition first_text (p : pattern) (block : str) : str :=
  from_option group1 [] (search p block).

Definition line_blocks (content : str) : list str :=
  map group1 (finditer ship_confirm_pattern content).

Definition serial_groups (block : str) : list str :=
  map group1 (finditer serials_pattern block).

(** The records of one line block. *)
Definition block_records (block : str) : list record :=
  let d := first_text delivery_id_pattern block in
  let p := first_text product_id_pattern block in
  match serial_groups block with
  | [] => [Record_ d p []]
  | sgs => map (fun sg => Record_ d p (first_text serial_number_pattern sg)) sgs
  end.

(** The record of one serial group of a line block with ids [d], [p]. *)
Definition serial_record (d p sg : str) : record :=
  Record_ d p (first_text serial_number_pattern sg).

(** The match object of the tag pair enclosing [g] that opens at
    [start]. *)
Definition match_of (p : pattern) (start : nat) (g : str) : Match :=
  let whole := open_lit p ++ g ++ close_lit p in
  MkMatch start (start + length whole) [whole; g].

(** The end of the last match of [p] at or after [pos], [pos] without a
    match; [s] is the subject from [pos] on. *)
Definition last_end_from (p : pattern) (pos : nat) (s : str) : nat :=
  from_option m_end pos (last (finditer_from p pos s)).

(** The end of the last line-group match, 0 without a match. *)
Definition last_match_end (content : str) : nat :=
  last_end_from ship_confirm_pattern 0 content.

(** [lit] occurs somewhere in [s]. *)
Definition occurs (lit s : str) : Prop := ∃ x y, s = x ++ lit ++ y.

(** The text of a single-value tag pair of [p] in [s]: the text enclosed
    by the leftmost opening tag whose next closing tag follows with no
    newline in between, and the empty string when [s] has no such opening
    tag.  This is the reading of the delivery-id, product/service-id and
    serial-number pairs. *)
Inductive leaf_text (p : pattern) (s : str) : str → Prop :=
| leaf_found junk g rest :
    s = junk ++ open_lit p ++ g ++ close_lit p ++ rest →
    only_at_end (close_lit p) g →
    newline ∉ g →
    (∀ junk' g' rest',
       s = junk' ++ open_lit p ++ g' ++ close_lit p ++ rest' →
       only_at_end (close_lit p) g' →
       length junk' < length junk →
       newline ∈ g') →
    leaf_text p s g
| leaf_missing :
    (∀ junk g rest,
       s = junk ++ open_lit p ++ g ++ close_lit p ++ rest →
       only_at_end (close_lit p) g →
       newline ∈ g) →
    leaf_text p s [].

(** The document up to the closing tag of its last tag pair of [p], the
    pairs being read as in [spans]; the empty text when the document has
    no pair. *)
Inductive upto_last_pair (p : pattern) : str → str → Prop :=
| upto_none s :
    ¬ has_pair p s → upto_last_pair p s []
| upto_pair junk g rest kept :
    only_at_end (open_lit p) junk →
    only_at_end (close_lit p) g →
    upto_last_pair p rest kept →
    upto_last_pair p (junk ++ open_lit p ++ g ++ close_lit p ++ rest)
                     (junk ++ open_lit p ++ g ++ close_lit p ++ kept).

End Spec.

(** ** Example documents *)

Module Examples.
Import Re EDIExtractor.

Definition line (block : str) : str :=
  open_lit ship_confirm_pattern ++ block ++ close_lit ship_confirm_pattern.

Definition serials (text : str) : str :=
  open_lit serials_pattern ++ text ++ close_lit serials_pattern.

Definition sg_A : str := $"<serial_number>A</serial_number>".
Definition sg_B : str := $"<serial_number>B</serial_number>".
Definition sg_C : str := $"<serial_number>C</serial_number>".

(** A line block with three serial groups. *)
Definition block_D1 : str :=
  $"<delivery_id>D1</delivery_id><ProductServiceId>P1</ProductServiceId>"
  ++ serials sg_A ++ serials sg_B ++ serials sg_C.

(** A line block without a serial group. *)
Definition block_D2 : str :=
  $"<delivery_id>D2</delivery_id><ProductServiceId>P2</ProductServiceId>".

(** A line block with neither a delivery id nor a product id. *)
Definition block_bare : str := serials sg_A.

Definition doc : str :=
  $"header" ++ line block_D2 ++ [newline] ++ line block_D1 ++ [newline]
  ++ line block_bare.

(** A line block laid out on several lines. *)
Definition sg_S3 : str :=
  [newline] ++ $"  <serial_number>S3</serial_number>" ++ [newline].

Definition block_D3 : str :=
  [newline] ++ $"<delivery_id>D3</delivery_id>" ++
  [newline] ++ $"<ProductServiceId>P3</ProductServiceId>" ++
  [newline] ++ serials sg_S3 ++ [newline].

(** A delivery id broken over two lines. *)
Definition block_broken : str :=
  $"<delivery_id>D" ++ [newline] ++ $"1</delivery_id>".

(** A line block in which a delivery-id tag is opened twice, the first
    time on another line than the closing tag, the product id is broken
    over two lines, and the serial group is laid out on several lines. *)
Definition block_relined : str :=
  $"<delivery_id>a" ++ [newline] ++ $"<delivery_id>b</delivery_id>"
  ++ $"<ProductServiceId>P" ++ [newline] ++ $"1</ProductServiceId>"
  ++ serials sg_S3.

(** A file system with one file and one directory. *)
Definition disk : Fs.fs :=
  <[["notes.txt"%string] := Fs.File $"keep me"]>
    (<[["archive"%string] := Fs.Dir]> ∅).

(** A line group that is opened and never closed. *)
Definition unclosed_tail : str :=
  [newline] ++ open_lit ship_confirm_pattern
  ++ $"<delivery_id>D7</delivery_id>" ++ serials sg_A.

(** A small world of files: one readable document, one file that is not
    UTF-8, and nothing else. *)
Definition files (filename : str) : result str :=
  if decide (filename = $"ship.xml") then Ok doc
  else if decide (filename = $"latin1.xml") then
    Raise (Exn UnicodeDecodeError
             $"'utf-8' codec can't decode byte 0xe9 in position 3")
  else
    Raise (Exn FileNotFoundError
             ($"[Errno 2] No such file or directory: '" ++ filename ++ $"'")).

End Examples.

(** * Properties *)

(** ** Literals and lazy matching *)

Section matching.
Import Re Spec.
#[local] Arguments open_lit : simpl never.
#[local] Arguments close_lit : simpl never.

Lemma strip_prefix_Some lit s rest :
  strip_prefix lit s = Some rest ↔ s = lit ++ rest.
Proof.
  revert s; induction lit as [|a lit IH]; intros [|b s]; simpl.
  - split; congruence.
  - split; congruence.
  - split; discriminate.
  - destruct (Ascii.eqb_spec a b) as [->|Hne].
    + rewrite IH. split; congruence.
    + split; congruence.
Qed.

Lemma strip_prefix_None lit s :
  strip_prefix lit s = None ↔ ¬ lit `prefix_of` s.
Proof.
  split.
  - intros H [k ->]. pose proof (proj2 (strip_prefix_Some lit (lit ++ k) k) eq_refl).
    congruence.
  - intros H. destruct (strip_prefix lit s) as [r|] eqn:E; [|done].
    apply strip_prefix_Some in E. destruct H. by exists r.
Qed.

Lemma strip_prefix_app lit r : strip_prefix lit (lit ++ r) = Some r.
Proof. by apply strip_prefix_Some. Qed.

(** Whether [lit] starts [s] is decided by the first [length lit]
    characters of [s]. *)
Lemma prefix_of_app_long (lit x t t' : str) :
  length lit ≤ length x → lit `prefix_of` x ++ t → lit `prefix_of` x ++ t'.
Proof.
  intros Hlen [k Hk].
  assert (lit = take (length lit) x) as Hl.
  { apply (f_equal (take (length lit))) in Hk.
    rewrite take_app_le in Hk by done. by rewrite take_app_length in Hk. }
  exists (drop (length lit) x ++ t').
  rewrite app_assoc. f_equal. rewrite Hl at 1. by rewrite take_drop.
Qed.

Lemma find_Some lit s n :
  find_lit lit s = Some n →
  lit `prefix_of` drop n s ∧ ∀ i, i < n → ¬ lit `prefix_of` drop i s.
Proof.
  revert n; induction s as [|c s IH]; intros n; simpl.
  - destruct (strip_prefix lit []) eqn:E; [|done]. intros [= <-].
    apply strip_prefix_Some in E. split; [by eexists|lia].
  - destruct (strip_prefix lit (c :: s)) eqn:E.
    + intros [= <-]. apply strip_prefix_Some in E. split; [by eexists|lia].
    + destruct (find_lit lit s) as [k|]; [|done]. intros [= <-].
      destruct (IH k eq_refl) as [H1 H2]. split; [done|].
      intros [|i] Hi; simpl.
      * by apply strip_prefix_None.
      * apply H2. lia.
Qed.

Lemma only_at_end_find lit x :
  find_lit lit (x ++ lit) = Some (length x) → only_at_end lit x.
Proof.
  intros [_ H]%find_Some a b Hab.
  assert (length a + length b = length x) as Hlen.
  { apply (f_equal length) in Hab. rewrite !length_app in Hab. lia. }
  destruct (decide (length a < length x)) as [Hlt|Hge].
  - destruct (H _ Hlt). rewrite Hab, drop_app_length. by eexists.
  - assert (b = []) as -> by (apply nil_length_inv; lia).
    rewrite app_nil_r in Hab. by apply app_inv_tail in Hab.
Qed.

(** *** The lazy star *)

Lemma lazy_star_sound dotall close s g rest :
  lazy_star dotall close s = Some (g, rest) →
  s = g ++ close ++ rest ∧ forallb (class_ok dotall) g = true
  ∧ only_at_end close g.
Proof.
  revert g; induction s as [|c s IH]; intros g; simpl.
  - destruct (strip_prefix close []) eqn:E; [|done].
    intros [= <- <-]. apply strip_prefix_Some in E.
    split; [done|]. split; [done|].
    intros a b Hab. symmetry in E. apply app_eq_nil in E as [-> _].
    symmetry in Hab. by apply app_eq_nil in Hab as [-> _].
  - destruct (strip_prefix close (c :: s)) eqn:E.
    + intros [= <- <-]. apply strip_prefix_Some in E.
      split; [done|]. split; [done|].
      intros a b Hab. simpl in Hab.
      apply (f_equal length) in Hab. rewrite !length_app in Hab.
      apply nil_length_inv. lia.
    + destruct (class_ok dotall c) eqn:Hc; [|done].
      destruct (lazy_star dotall close s) as [[g' r']|]; [|done].
      intros [= <- <-]. destruct (IH _ eq_refl) as (-> & Hall & Hend).
      split; [done|]. split; [by simpl; rewrite Hc|].
      intros [|a0 a] b Hab; simpl in Hab.
      * apply strip_prefix_None in E. destruct E. exists (b ++ r').
        rewrite (app_assoc close), <- Hab. simpl. by rewrite <- app_assoc.
      * injection Hab as <- Hab. f_equal. by eapply Hend.
Qed.

Lemma lazy_star_complete dotall close g rest :
  forallb (class_ok dotall) g = true →
  only_at_end close g →
  lazy_star dotall close (g ++ close ++ rest) = Some (g, rest).
Proof.
  induction g as [|c g IH]; intros Hall Hend.
  - destruct rest, close; simpl; rewrite ?strip_prefix_app, ?Ascii.eqb_refl;
      try done; by rewrite strip_prefix_app.
  - simpl in Hall. apply andb_prop in Hall as [Hc Hall]. simpl.
    destruct (strip_prefix close (c :: g ++ close ++ rest)) as [r|] eqn:E.
    + apply strip_prefix_Some in E.
      assert (close `prefix_of` (c :: g ++ close) ++ []) as [k Hk].
      { apply (prefix_of_app_long close (c :: g ++ close) rest []).
        - simpl. rewrite length_app. lia.
        - simpl. rewrite <- app_assoc. rewrite E. by eexists. }
      rewrite app_nil_r in Hk.
      specialize (Hend [] k Hk). done.
    + rewrite Hc, IH; [done|done|].
      intros a b Hab. specialize (Hend (c :: a) b). simpl in Hend.
      rewrite Hab in Hend. specialize (Hend eq_refl). congruence.
Qed.

(** An occurrence of [lit] that starts before the end of [x] contradicts
    [only_at_end lit x], whatever follows [x ++ lit]. *)
Lemma only_at_end_no_earlier lit x t a b :
  only_at_end lit x → x ++ lit ++ t = a ++ lit ++ b → length x ≤ length a.
Proof.
  intros Hend Heq. destruct (decide (length x ≤ length a)) as [|Hlt]; [done|].
  assert (x ++ lit = a ++ lit ++ take (length x - length a) b) as Hx.
  { apply (f_equal (take (length (x ++ lit)))) in Heq.
    rewrite !app_assoc in Heq. rewrite take_app_length in Heq.
    rewrite take_app_ge in Heq by (rewrite !length_app; lia).
    rewrite Heq, <- app_assoc. do 3 f_equal. rewrite !length_app. lia. }
  apply Hend in Hx. subst. lia.
Qed.

Lemma match_here_sound p s g rest :
  match_here p s = Some (g, rest) →
  s = open_lit p ++ g ++ close_lit p ++ rest
  ∧ forallb (class_ok (p_dotall p)) g = true
  ∧ only_at_end (close_lit p) g.
Proof.
  unfold match_here.
  destruct (strip_prefix (open_lit p) s) as [body|] eqn:E; [|done].
  apply strip_prefix_Some in E.
  intros (-> & ? & ?)%lazy_star_sound. done.
Qed.

Lemma match_here_complete p g rest :
  forallb (class_ok (p_dotall p)) g = true →
  only_at_end (close_lit p) g →
  match_here p (open_lit p ++ g ++ close_lit p ++ rest) = Some (g, rest).
Proof.
  intros. unfold match_here. rewrite strip_prefix_app.
  by apply lazy_star_complete.
Qed.

Lemma match_here_None_no_open p s :
  ¬ open_lit p `prefix_of` s → match_here p s = None.
Proof.
  intros H%strip_prefix_None. unfold match_here. by rewrite H.
Qed.

(** With [[\s\S]] the lazy star reaches any closing tag that follows. *)
Lemma lazy_star_dotall close g c :
  is_Some (lazy_star true close (g ++ close ++ c)).
Proof.
  induction g as [|x g [[g' r'] IH]].
  - simpl. destruct close, c; simpl; rewrite ?Ascii.eqb_refl, ?strip_prefix_app;
      eauto.
  - simpl. destruct (strip_prefix close (x :: g ++ close ++ c)); [eauto|].
    rewrite IH. eauto.
Qed.

Lemma match_here_dotall p g c :
  p_dotall p = true →
  is_Some (match_here p (open_lit p ++ g ++ close_lit p ++ c)).
Proof.
  intros Hd. unfold match_here. rewrite strip_prefix_app, Hd.
  apply lazy_star_dotall.
Qed.

(** *** Leftmost search *)

Lemma search_from_unfold p pos s :
  search_from p pos s =
  match match_here p s with
  | Some (g, rest) =>
      let len := length s - length rest in
      Some (MkMatch pos (pos + len) [take len s; g])
  | None =>
      match s with
      | [] => None
      | _ :: s' => search_from p (S pos) s'
      end
  end.
Proof. by destruct s. Qed.

Lemma search_from_skip p pos junk s :
  (∀ i, i < length junk → match_here p (drop i (junk ++ s)) = None) →
  search_from p pos (junk ++ s) = search_from p (pos + length junk) s.
Proof.
  revert pos; induction junk as [|c junk IH]; intros pos Hnone.
  - simpl. by rewrite Nat.add_0_r.
  - rewrite search_from_unfold.
    pose proof (Hnone 0 ltac:(simpl; lia)) as H0. rewrite drop_0 in H0.
    rewrite H0. simpl.
    rewrite IH; [f_equal; lia|].
    intros i Hi. apply (Hnone (S i)). simpl. lia.
Qed.

Lemma search_from_here p pos s g rest :
  match_here p s = Some (g, rest) →
  search_from p pos s = Some (match_of p pos g).
Proof.
  intros H. rewrite search_from_unfold, H.
  apply match_here_sound in H as (-> & _ & _).
  assert (length (open_lit p ++ g ++ close_lit p ++ rest) - length rest
          = length (open_lit p ++ g ++ close_lit p)) as ->
    by (rewrite !length_app; lia).
  assert (take (length (open_lit p ++ g ++ close_lit p))
               (open_lit p ++ g ++ close_lit p ++ rest)
          = open_lit p ++ g ++ close_lit p) as Htake.
  { replace (open_lit p ++ g ++ close_lit p ++ rest)
      with ((open_lit p ++ g ++ close_lit p) ++ rest)
      by (by rewrite <- !app_assoc).
    apply take_app_length. }
  cbv zeta. unfold match_of. by rewrite Htake.
Qed.

(** The first opening tag followed by a text of the pattern's class up to
    the first closing tag is what the search returns. *)
Lemma search_from_span p pos junk g rest :
  only_at_end (open_lit p) junk →
  only_at_end (close_lit p) g →
  forallb (class_ok (p_dotall p)) g = true →
  search_from p pos (junk ++ open_lit p ++ g ++ close_lit p ++ rest)
  = Some (match_of p (pos + length junk) g).
Proof.
  intros Hopen Hclose Hclass. rewrite search_from_skip.
  - apply (search_from_here _ _ _ g rest). by apply match_here_complete.
  - intros i Hi. apply match_here_None_no_open. intros [k Hk].
    pose proof (take_drop i (junk ++ open_lit p ++ g ++ close_lit p ++ rest))
      as Heq.
    rewrite Hk in Heq. symmetry in Heq.
    apply (only_at_end_no_earlier _ _ _ _ _ Hopen) in Heq.
    rewrite length_take, length_app in Heq. lia.
Qed.

Lemma search_from_sound p pos s m :
  search_from p pos s = Some m →
  ∃ junk g rest,
    s = junk ++ open_lit p ++ g ++ close_lit p ++ rest
    ∧ m = match_of p (pos + length junk) g
    ∧ match_here p (open_lit p ++ g ++ close_lit p ++ rest) = Some (g, rest)
    ∧ ∀ i, i < length junk → match_here p (drop i s) = None.
Proof.
  revert pos; induction s as [|c s IH]; intros pos; rewrite search_from_unfold.
  - destruct (match_here p []) as [[g rest]|] eqn:E; [|done].
    intros _. apply match_here_sound in E as (E & _ & _).
    apply (f_equal length) in E. unfold open_lit in E.
    rewrite !length_app in E. simpl in E. lia.
  - destruct (match_here p (c :: s)) as [[g rest]|] eqn:E.
    + intros Hm. exists [], g, rest.
      pose proof (search_from_here p pos _ _ _ E) as Hh.
      rewrite search_from_unfold, E in Hh.
      pose proof E as (Hs & _ & _)%match_here_sound.
      cbn [app length]. rewrite Nat.add_0_r.
      split; [done|]. split; [congruence|].
      split; [by rewrite <- Hs|]. lia.
    + intros (junk & g & rest & -> & -> & Hm & Hnone)%IH.
      exists (c :: junk), g, rest. cbn [app length].
      split; [done|]. split; [f_equal; lia|]. split; [done|].
      intros [|i] Hi; [done|]. apply Hnone. lia.
Qed.

Lemma search_from_None p pos s :
  ¬ has_pair p s → search_from p pos s = None.
Proof.
  intros Hno. destruct (search_from p pos s) as [m|] eqn:E; [|done].
  apply search_from_sound in E as (junk & g & rest & -> & _). destruct Hno.
  by exists junk, g, rest.
Qed.

(** For a pattern with [[\s\S]] the match starts at the first opening
    tag that has a closing tag after it, which is the first opening tag. *)
Lemma search_from_sound_dotall p pos s m :
  p_dotall p = true →
  search_from p pos s = Some m →
  ∃ junk g rest,
    s = junk ++ open_lit p ++ g ++ close_lit p ++ rest
    ∧ m = match_of p (pos + length junk) g
    ∧ only_at_end (open_lit p) junk
    ∧ only_at_end (close_lit p) g.
Proof.
  intros Hd (junk & g & rest & -> & -> & Hm & Hnone)%search_from_sound.
  exists junk, g, rest. split; [done|]. split; [done|].
  apply match_here_sound in Hm as (_ & _ & Hend). split; [|done].
  intros a b Hab.
  assert (length a + length b = length junk) as Hlen.
  { apply (f_equal length) in Hab. rewrite !length_app in Hab. lia. }
  destruct (decide (length a < length junk)) as [Hlt|Hge].
  - specialize (Hnone _ Hlt).
    rewrite (app_assoc junk), Hab, <- !app_assoc, drop_app_length in Hnone.
    pose proof (match_here_dotall p (b ++ g) rest Hd) as [? Hsome].
    rewrite <- !app_assoc in Hsome. congruence.
  - assert (b = []) as -> by (apply nil_length_inv; lia).
    rewrite app_nil_r in Hab. by apply app_inv_tail in Hab.
Qed.

(** *** Successive matches *)

Lemma finditer_from_eq p pos s :
  finditer_from p pos s =
  match search_from p pos s with
  | Some m => m :: finditer_from p (m_end m) (drop (m_end m - pos) s)
  | None => []
  end.
Proof.
  rewrite finditer_from_equation_1.
  destruct (inspect (search_from p pos s)) as [[m|] H]; simpl; by rewrite H.
Qed.

Lemma drop_after_match p pos junk g rest :
  drop (m_end (match_of p (pos + length junk) g) - pos)
       (junk ++ open_lit p ++ g ++ close_lit p ++ rest) = rest.
Proof.
  unfold match_of. cbn [m_end].
  replace (junk ++ open_lit p ++ g ++ close_lit p ++ rest)
    with ((junk ++ open_lit p ++ g ++ close_lit p) ++ rest)
    by (by rewrite <- !app_assoc).
  replace (pos + length junk + length (open_lit p ++ g ++ close_lit p) - pos)
    with (length (junk ++ open_lit p ++ g ++ close_lit p))
    by (rewrite !length_app; lia).
  apply drop_app_length.
Qed.

Lemma finditer_from_Some p pos junk g rest :
  search_from p pos (junk ++ open_lit p ++ g ++ close_lit p ++ rest)
  = Some (match_of p (pos + length junk) g) →
  finditer_from p pos (junk ++ open_lit p ++ g ++ close_lit p ++ rest)
  = match_of p (pos + length junk) g
    :: finditer_from p (m_end (match_of p (pos + length junk) g)) rest.
Proof.
  intros H. rewrite finditer_from_eq, H. by rewrite drop_after_match.
Qed.

Lemma group1_match_of p start g : group1 (match_of p start g) = g.
Proof. done. Qed.

Lemma group_match_of p start g : group (match_of p start g) 1 = Ok g.
Proof. done. Qed.

(** Every match has its group 1. *)
Lemma search_from_group p pos s m :
  search_from p pos s = Some m → group m 1 = Ok (group1 m).
Proof. by intros (junk & g & rest & _ & -> & _)%search_from_sound. Qed.

Lemma finditer_from_group p pos s :
  Forall (fun m => group m 1 = Ok (group1 m)) (finditer_from p pos s).
Proof.
  remember (length s) as n eqn:Hn. revert pos s Hn.
  induction n as [n IH] using lt_wf_ind. intros pos s ->.
  rewrite finditer_from_eq.
  destruct (search_from p pos s) as [m|] eqn:E; [|constructor].
  constructor; [by eapply search_from_group|].
  apply search_from_bounds in E.
  eapply IH; [|done]. rewrite length_drop. lia.
Qed.

(** The matches of a pattern with [[\s\S]] are the successive tag pairs
    of the document. *)
Lemma finditer_from_spans p pos s gs :
  p_dotall p = true → spans p s gs → map group1 (finditer_from p pos s) = gs.
Proof.
  intros Hd Hsp. revert pos.
  induction Hsp as [s Hno|junk g rest gs Ho Hc Hsp IH]; intros pos.
  - by rewrite finditer_from_eq, search_from_None.
  - rewrite finditer_from_Some.
    + cbn [map]. by rewrite group1_match_of, IH.
    + apply search_from_span; [done|done|].
      rewrite Hd. by apply forallb_forall.
Qed.

Lemma spans_finditer_from p pos s :
  p_dotall p = true → spans p s (map group1 (finditer_from p pos s)).
Proof.
  intros Hd. remember (length s) as n eqn:Hn. revert pos s Hn.
  induction n as [n IH] using lt_wf_ind. intros pos s ->.
  rewrite finditer_from_eq.
  destruct (search_from p pos s) as [m|] eqn:E.
  - pose proof E as Hb%search_from_bounds.
    apply search_from_sound_dotall in E
      as (junk & g & rest & -> & -> & Ho & Hc); [|done].
    rewrite drop_after_match. cbn [map]. rewrite group1_match_of.
    apply spans_cons; [done|done|].
    eapply IH; [|done]. rewrite !length_app. unfold open_lit. simpl.
    rewrite length_app. simpl. lia.
  - apply spans_nil. intros (a & g & c & ->).
    pose proof (search_from_sound p pos) as _.
    assert (is_Some (search_from p pos
                       (a ++ open_lit p ++ g ++ close_lit p ++ c))) as [m Hm];
      [|congruence].
    clear E IH. revert pos. induction a as [|x a IHa]; intros pos.
    + rewrite search_from_unfold. cbn [app].
      destruct (match_here_dotall p g c Hd) as [[g' r'] ->]. eauto.
    + rewrite search_from_unfold. cbn [app].
      destruct (match_here p (x :: a ++ _)) as [[g' r']|]; eauto.
Qed.

(** The relation determines the list of enclosed texts. *)
Lemma spans_functional p s gs gs' :
  p_dotall p = true → spans p s gs → spans p s gs' → gs = gs'.
Proof.
  intros Hd H1 H2.
  apply (finditer_from_spans p 0) in H1, H2; try done. congruence.
Qed.

End matching.

(** ** The loops of [extract_data] *)

Section extraction.
Import Re EDIExtractor Spec.

Lemma bind_Ok {A B} (a : A) (k : A → result B) : (Ok a ≫= k) = k a.
Proof. done. Qed.

Lemma group1_or_empty_search p s :
  group1_or_empty (search p s) = Ok (first_text p s).
Proof.
  unfold first_text, search.
  destruct (search_from p 0 s) as [m|] eqn:E; [|done].
  by eapply search_from_group.
Qed.

Lemma serials_body_step d p results found m :
  group m 1 = Ok (group1 m) →
  serials_body d p (results, found) m
  = Ok (results ++ [serial_record d p (group1 m)], true).
Proof.
  intros Hm. unfold serials_body.
  by rewrite Hm, bind_Ok, group1_or_empty_search.
Qed.

Lemma serials_loop d p ms results found :
  Forall (fun m => group m 1 = Ok (group1 m)) ms →
  for_each (serials_body d p) ms (results, found)
  = Ok (results ++ map (serial_record d p) (map group1 ms),
        if ms is [] then found else true).
Proof.
  intros Hms. revert results found.
  induction Hms as [|m ms Hm _ IH]; intros results found.
  - by rewrite app_nil_r.
  - cbn [for_each]. rewrite serials_body_step, bind_Ok, IH by done.
    cbn [map]. rewrite <- app_assoc. by destruct ms.
Qed.

Lemma line_body_records results m :
  group m 1 = Ok (group1 m) →
  line_body results m = Ok (results ++ block_records (group1 m)).
Proof.
  intros Hm. unfold line_body.
  rewrite Hm, bind_Ok, !group1_or_empty_search, !bind_Ok.
  rewrite serials_loop by apply finditer_from_group.
  rewrite bind_Ok. unfold block_records, serial_groups, finditer.
  destruct (finditer_from serials_pattern 0 (group1 m)) as [|sm sms]; cbn.
  - by rewrite app_nil_r.
  - done.
Qed.

Lemma lines_loop ms results :
  Forall (fun m => group m 1 = Ok (group1 m)) ms →
  for_each line_body ms results
  = Ok (results ++ flat_map block_records (map group1 ms)).
Proof.
  intros Hms. revert results.
  induction Hms as [|m ms Hm _ IH]; intros results.
  - by rewrite app_nil_r.
  - cbn [for_each]. rewrite line_body_records, bind_Ok, IH by done.
    cbn [map flat_map]. by rewrite <- app_assoc.
Qed.

(** The loops with their accumulator compute the records block by block. *)
Lemma extract_data_blocks content :
  extract_data content = Ok (flat_map block_records (line_blocks content)).
Proof.
  unfold extract_data. rewrite lines_loop by apply finditer_from_group. done.
Qed.

End extraction.

(** ** Records of a document *)

Section records.
Import Re EDIExtractor Spec.

Lemma line_blocks_spans content bs :
  spans ship_confirm_pattern content bs → line_blocks content = bs.
Proof. by apply finditer_from_spans. Qed.

Lemma serial_groups_spans block sgs :
  spans serials_pattern block sgs → serial_groups block = sgs.
Proof. by apply finditer_from_spans. Qed.

(** The tag pairs of a concrete document are found by running the
    matcher. *)
Lemma spans_compute p s gs :
  p_dotall p = true → map group1 (finditer p s) = gs → spans p s gs.
Proof. intros Hd <-. by apply spans_finditer_from. Qed.

(** Whether a document has a tag pair does not depend on the character
    class of the pattern, so the matcher with [[\s\S]] decides it. *)
Lemma has_pair_compute p s :
  finditer (Pattern (p_tag p) true) s = [] → ¬ has_pair p s.
Proof.
  intros Hnil.
  assert (spans (Pattern (p_tag p) true) s []) as Hsp
    by (apply spans_compute; [done|by rewrite Hnil]).
  by inversion Hsp.
Qed.

Lemma first_text_no_pair p block :
  ¬ has_pair p block → first_text p block = [].
Proof.
  intros H. unfold first_text, search. by rewrite search_from_None.
Qed.

Lemma block_records_serials block sg sgs :
  serial_groups block = sg :: sgs →
  block_records block
  = map (fun sg => Record_ (first_text delivery_id_pattern block)
                           (first_text product_id_pattern block)
                           (first_text serial_number_pattern sg))
        (sg :: sgs).
Proof. intros H. unfold block_records. by rewrite H. Qed.

Lemma block_records_no_serials block :
  serial_groups block = [] →
  block_records block
  = [Record_ (first_text delivery_id_pattern block)
             (first_text product_id_pattern block) []].
Proof. intros H. unfold block_records. by rewrite H. Qed.

Lemma block_records_ids block :
  Forall (fun r => delivery_id r = first_text delivery_id_pattern block
                   ∧ product_service_id r = first_text product_id_pattern block)
         (block_records block).
Proof.
  unfold block_records. destruct (serial_groups block) as [|sg sgs].
  - by repeat constructor.
  - apply Forall_map, Forall_true. done.
Qed.

Lemma block_records_nonempty block : block_records block ≠ [].
Proof. unfold block_records. by destruct (serial_groups block). Qed.

Lemma extract_data_at content pre block post :
  spans ship_confirm_pattern content (pre ++ block :: post) →
  extract_data content
  = Ok (flat_map block_records pre ++ block_records block
        ++ flat_map block_records post).
Proof.
  intros H%line_blocks_spans. rewrite extract_data_blocks, H.
  by rewrite flat_map_app.
Qed.

End records.

(** ** The claims on [extract_data] *)

Section claims_extract.
Import Re EDIExtractor Spec Examples.

(** C1. A line-group block with k >= 1 serial sub-groups yields exactly k
    records, one per sub-group in the order of the sub-groups, all with the
    delivery id and the product/service id of the block; the records of
    the blocks follow each other in the order of the blocks in the
    document. *)
Theorem extract_data_serial_groups content pre block post sgs :
  spans ship_confirm_pattern content (pre ++ block :: post) →
  spans serials_pattern block sgs →
  1 ≤ length sgs →
  extract_data content
  = Ok (flat_map block_records pre
        ++ map (fun sg => Record_ (first_text delivery_id_pattern block)
                                  (first_text product_id_pattern block)
                                  (first_text serial_number_pattern sg))
               sgs
        ++ flat_map block_records post).
Proof.
  intros Hline Hser%serial_groups_spans Hk.
  rewrite (extract_data_at _ _ _ _ Hline).
  destruct sgs as [|sg sgs]; [simpl in Hk; lia|].
  by rewrite (block_records_serials _ _ _ Hser).
Qed.

Lemma extract_data_serial_groups_witness :
  spans ship_confirm_pattern doc ([block_D2] ++ block_D1 :: [block_bare])
  ∧ spans serials_pattern block_D1 [sg_A; sg_B; sg_C]
  ∧ 1 ≤ length [sg_A; sg_B; sg_C]
  ∧ extract_data doc
    = Ok ([Record_ $"D2" $"P2" []]
          ++ [Record_ $"D1" $"P1" $"A"; Record_ $"D1" $"P1" $"B";
              Record_ $"D1" $"P1" $"C"]
          ++ [Record_ [] [] $"A"]).
Proof.
  assert (spans ship_confirm_pattern doc ([block_D2] ++ block_D1 :: [block_bare]))
    as Hline by (apply spans_compute; [done|vm_compute; reflexivity]).
  assert (spans serials_pattern block_D1 [sg_A; sg_B; sg_C])
    as Hser by (apply spans_compute; [done|vm_compute; reflexivity]).
  assert (1 ≤ length [sg_A; sg_B; sg_C]) as Hk by (simpl; lia).
  split; [done|]. split; [done|]. split; [done|].
  rewrite (extract_data_serial_groups _ _ _ _ _ Hline Hser Hk).
  vm_compute. reflexivity.
Defined.

(** C2. A line-group block without a serial sub-group yields exactly one
    record, with an empty serial number and the ids of the block. *)
Theorem extract_data_no_serial_group content pre block post :
  spans ship_confirm_pattern content (pre ++ block :: post) →
  ¬ has_pair serials_pattern block →
  extract_data content
  = Ok (flat_map block_records pre
        ++ [Record_ (first_text delivery_id_pattern block)
                    (first_text product_id_pattern block) []]
        ++ flat_map block_records post).
Proof.
  intros Hline Hno. rewrite (extract_data_at _ _ _ _ Hline).
  rewrite block_records_no_serials; [done|].
  apply serial_groups_spans. by constructor.
Qed.

Lemma extract_data_no_serial_group_witness :
  spans ship_confirm_pattern doc ([] ++ block_D2 :: [block_D1; block_bare])
  ∧ ¬ has_pair serials_pattern block_D2
  ∧ extract_data doc
    = Ok ([] ++ [Record_ $"D2" $"P2" []]
          ++ [Record_ $"D1" $"P1" $"A"; Record_ $"D1" $"P1" $"B";
              Record_ $"D1" $"P1" $"C"; Record_ [] [] $"A"]).
Proof.
  assert (spans ship_confirm_pattern doc ([] ++ block_D2 :: [block_D1; block_bare]))
    as Hline by (apply spans_compute; [done|vm_compute; reflexivity]).
  assert (¬ has_pair serials_pattern block_D2)
    as Hno by (apply has_pair_compute; vm_compute; reflexivity).
  split; [done|]. split; [done|].
  rewrite (extract_data_no_serial_group _ _ _ _ Hline Hno).
  vm_compute. reflexivity.
Defined.

(** C3. When the delivery-id pair (or the product/service-id pair) is
    missing from a line-group block, every record of the block has the
    empty string in that field, and no error is raised. *)
Theorem extract_data_missing_tag content pre block post :
  spans ship_confirm_pattern content (pre ++ block :: post) →
  ∃ rs,
    extract_data content
    = Ok (flat_map block_records pre ++ rs ++ flat_map block_records post)
    ∧ rs ≠ []
    ∧ (¬ has_pair delivery_id_pattern block →
       Forall (fun r => delivery_id r = []) rs)
    ∧ (¬ has_pair product_id_pattern block →
       Forall (fun r => product_service_id r = []) rs).
Proof.
  intros Hline. exists (block_records block).
  split; [by apply extract_data_at|].
  split; [apply block_records_nonempty|].
  split; intros Hno%first_text_no_pair;
    eapply Forall_impl; try apply block_records_ids;
    intros r [Hd Hp]; simpl; congruence.
Qed.

Lemma extract_data_missing_tag_witness :
  spans ship_confirm_pattern doc ([block_D2; block_D1] ++ block_bare :: [])
  ∧ ¬ has_pair delivery_id_pattern block_bare
  ∧ ¬ has_pair product_id_pattern block_bare
  ∧ ∃ rs,
      extract_data doc
      = Ok (flat_map block_records [block_D2; block_D1] ++ rs
            ++ flat_map block_records [])
      ∧ rs ≠ []
      ∧ Forall (fun r => delivery_id r = []) rs
      ∧ Forall (fun r => product_service_id r = []) rs.
Proof.
  assert (spans ship_confirm_pattern doc ([block_D2; block_D1] ++ block_bare :: []))
    as Hline by (apply spans_compute; [done|vm_compute; reflexivity]).
  assert (¬ has_pair delivery_id_pattern block_bare)
    as Hd by (apply has_pair_compute; vm_compute; reflexivity).
  assert (¬ has_pair product_id_pattern block_bare)
    as Hp by (apply has_pair_compute; vm_compute; reflexivity).
  split; [done|]. split; [done|]. split; [done|].
  destruct (extract_data_missing_tag _ _ _ _ Hline) as (rs & H1 & H2 & H3 & H4).
  exists rs. split; [done|]. split; [done|].
  split; [by apply H3|by apply H4].
Defined.

(** C8. A document without a line-group tag pair yields no record. *)
Theorem extract_data_no_line_group content :
  ¬ has_pair ship_confirm_pattern content → extract_data content = Ok [].
Proof.
  intros Hno. rewrite extract_data_blocks.
  by rewrite (line_blocks_spans content []) by by constructor.
Qed.

Lemma extract_data_no_line_group_witness :
  ¬ has_pair ship_confirm_pattern
      $"</ShipConfirmLine><ShipConfirmLine><delivery_id>D1</delivery_id>"
  ∧ extract_data
      $"</ShipConfirmLine><ShipConfirmLine><delivery_id>D1</delivery_id>"
    = Ok [].
Proof.
  assert (¬ has_pair ship_confirm_pattern
            $"</ShipConfirmLine><ShipConfirmLine><delivery_id>D1</delivery_id>")
    as Hno by (apply has_pair_compute; vm_compute; reflexivity).
  split; [done|]. by apply extract_data_no_line_group.
Defined.

(** C9. [extract_data] is a total function of its input: on every string,
    however the tags are arranged, it returns a list of records and raises
    no error. *)
Theorem extract_data_total content :
  ∃ rs, extract_data content = Ok rs.
Proof. eexists. apply extract_data_blocks. Qed.

(** *** An opening tag that is never closed *)

Lemma no_pair_nil p : ¬ has_pair p [].
Proof.
  intros (a & g & c & H). apply (f_equal length) in H.
  unfold open_lit in H. rewrite !length_app in H. simpl in H. lia.
Qed.

Lemma app_eq_prefix {A} (s t u c : list A) :
  s ++ t = u ++ c → length u ≤ length s → ∃ c', s = u ++ c' ∧ c = c' ++ t.
Proof.
  revert s. induction u as [|x u IH]; intros s Heq Hlen.
  - by exists s.
  - destruct s as [|y s]; [simpl in Hlen; lia|].
    simpl in *. injection Heq as -> Heq.
    destruct (IH s Heq) as (c' & -> & ->); [lia|]. by exists c'.
Qed.

Lemma find_lit_unfold lit s :
  find_lit lit s =
  match strip_prefix lit s with
  | Some _ => Some 0
  | None => match s with [] => None | _ :: s' => S <$> find_lit lit s' end
  end.
Proof. by destruct s. Qed.

Lemma find_None lit s : find_lit lit s = None → ¬ occurs lit s.
Proof.
  intros Hnone (x & y & ->). revert Hnone.
  induction x as [|c x IH]; rewrite find_lit_unfold.
  - cbn [app]. by rewrite strip_prefix_app.
  - cbn [app]. destruct (strip_prefix lit (c :: x ++ lit ++ y)); [done|].
    destruct (find_lit lit (x ++ lit ++ y)); [done|]. intros _. by apply IH.
Qed.

(** The character [<] stands only at the start of the two line-group
    tags, and the tags differ in their second character. *)
Lemma open_lit_lt k :
  open_lit ship_confirm_pattern !! k = Some "<"%char → k = 0.
Proof.
  do 17 (destruct k as [|k]; [by vm_compute|]). by vm_compute.
Qed.

Lemma close_lit_lt k :
  close_lit ship_confirm_pattern !! k = Some "<"%char → k = 0.
Proof.
  do 18 (destruct k as [|k]; [by vm_compute|]). by vm_compute.
Qed.

(** A closing line-group tag of [a ++ open ++ b] that is not in [b] lies
    within [a]: it cannot overlap the opening tag. *)
Lemma close_tag_inside a b x y :
  a ++ open_lit ship_confirm_pattern ++ b
  = x ++ close_lit ship_confirm_pattern ++ y →
  ¬ occurs (close_lit ship_confirm_pattern) b →
  length x + length (close_lit ship_confirm_pattern) ≤ length a.
Proof.
  intros Heq Hno.
  destruct (decide (length x + length (close_lit ship_confirm_pattern)
                    ≤ length a)) as [|Hlt]; [done|exfalso].
  destruct (decide (length a + length (open_lit ship_confirm_pattern)
                    ≤ length x)) as [Hge|Hmid].
  - apply Hno. exists (drop (length a + length (open_lit ship_confirm_pattern)) x), y.
    apply (f_equal (drop (length a + length (open_lit ship_confirm_pattern))))
      in Heq.
    rewrite app_assoc, <- length_app, drop_app_length in Heq.
    rewrite Heq, drop_app_le, length_app; [done|]. rewrite length_app. lia.
  - destruct (decide (length x ≤ length a)) as [Hle|Hgt].
    + pose proof (f_equal (lookup (length a)) Heq) as H0.
      rewrite (lookup_app_r a), Nat.sub_diag in H0 by lia.
      rewrite (lookup_app_r x),
        (lookup_app_l (close_lit ship_confirm_pattern)) in H0 by lia.
      symmetry in H0. apply close_lit_lt in H0.
      assert (length x = length a) as Hxa by lia.
      apply app_inj_1 in Heq as [_ Heq]; [|done]. discriminate Heq.
    + pose proof (f_equal (lookup (length x)) Heq) as H0.
      rewrite (lookup_app_r x), Nat.sub_diag in H0 by lia.
      rewrite (lookup_app_r a),
        (lookup_app_l (open_lit ship_confirm_pattern)) in H0 by lia.
      apply open_lit_lt in H0. lia.
Qed.

(** Text appended to a document adds no tag pair when every closing tag
    lies within the document. *)
Lemma spans_app_unclosed p a t gs :
  (∀ x y, a ++ t = x ++ close_lit p ++ y →
          length x + length (close_lit p) ≤ length a) →
  spans p a gs → spans p (a ++ t) gs.
Proof.
  intros Hin Hsp. revert Hin.
  induction Hsp as [s Hno|junk g rest gs Ho Hc Hsp IH]; intros Hin.
  - constructor. intros (x & g & c & Heq).
    specialize (Hin (x ++ open_lit p ++ g) c).
    rewrite <- !app_assoc in Hin. specialize (Hin Heq).
    rewrite !app_assoc in Heq. apply app_eq_prefix in Heq as (c' & Hs & _).
    + apply Hno. exists x, g, c'. by rewrite Hs, <- !app_assoc.
    + rewrite !length_app in *. lia.
  - rewrite <- !app_assoc. apply spans_cons; [done|done|].
    apply IH. intros x y Heq.
    specialize (Hin (junk ++ open_lit p ++ g ++ close_lit p ++ x) y).
    rewrite <- !app_assoc in Hin. rewrite Heq in Hin. specialize (Hin eq_refl).
    rewrite !length_app in *. lia.
Qed.

Lemma upto_app_unclosed p a t kept :
  (∀ x y, a ++ t = x ++ close_lit p ++ y →
          length x + length (close_lit p) ≤ length a) →
  upto_last_pair p a kept → upto_last_pair p (a ++ t) kept.
Proof.
  intros Hin Hup. revert Hin.
  induction Hup as [s Hno|junk g rest kept Ho Hc Hup IH]; intros Hin.
  - constructor. intros (x & g & c & Heq).
    specialize (Hin (x ++ open_lit p ++ g) c).
    rewrite <- !app_assoc in Hin. specialize (Hin Heq).
    rewrite !app_assoc in Heq. apply app_eq_prefix in Heq as (c' & Hs & _).
    + apply Hno. exists x, g, c'. by rewrite Hs, <- !app_assoc.
    + rewrite !length_app in *. lia.
  - rewrite <- !app_assoc. apply upto_pair; [done|done|].
    apply IH. intros x y Heq.
    specialize (Hin (junk ++ open_lit p ++ g ++ close_lit p ++ x) y).
    rewrite <- !app_assoc in Hin. rewrite Heq in Hin. specialize (Hin eq_refl).
    rewrite !length_app in *. lia.
Qed.

(** The document cut after its last tag pair has the same tag pairs. *)
Lemma spans_upto p s gs :
  spans p s gs →
  ∃ kept, upto_last_pair p s kept ∧ kept `prefix_of` s ∧ spans p kept gs.
Proof.
  induction 1 as [s Hno|junk g rest gs Ho Hc Hsp (kept & Hup & Hpre & Hk)].
  - exists []. split; [by constructor|]. split; [apply prefix_nil|].
    constructor. apply no_pair_nil.
  - exists (junk ++ open_lit p ++ g ++ close_lit p ++ kept).
    split; [by constructor|]. split; [|by constructor].
    by do 4 apply prefix_app.
Qed.

(** The cut is where the last match of the pattern ends. *)
Lemma upto_take_last p s kept :
  p_dotall p = true → upto_last_pair p s kept →
  ∀ pos, pos ≤ last_end_from p pos s
         ∧ take (last_end_from p pos s - pos) s = kept.
Proof.
  intros Hd Hup. induction Hup as [s Hno|junk g rest kept Ho Hc Hup IH];
    intros pos.
  - unfold last_end_from. rewrite finditer_from_eq, search_from_None by done.
    simpl. split; [done|]. by rewrite Nat.sub_diag, take_0.
  - unfold last_end_from. rewrite finditer_from_Some.
    2:{ apply search_from_span; [done|done|].
        rewrite Hd. by apply forallb_forall. }
    set (m := match_of p (pos + length junk) g).
    destruct (IH (m_end m)) as [Hle Htake]. fold (last_end_from p (m_end m) rest).
    assert (from_option m_end pos (last (m :: finditer_from p (m_end m) rest))
            = last_end_from p (m_end m) rest) as ->.
    { unfold last_end_from. rewrite last_cons.
      by destruct (last (finditer_from p (m_end m) rest)). }
    assert (m_end m = pos + length (junk ++ open_lit p ++ g ++ close_lit p))
      as Hend by (subst m; unfold match_of; cbn [m_end];
                  rewrite !length_app; lia).
    split; [lia|].
    replace (junk ++ open_lit p ++ g ++ close_lit p ++ rest)
      with ((junk ++ open_lit p ++ g ++ close_lit p) ++ rest)
      by (by rewrite <- !app_assoc).
    rewrite take_app_ge by lia.
    replace (last_end_from p (m_end m) rest - pos
             - length (junk ++ open_lit p ++ g ++ close_lit p))
      with (last_end_from p (m_end m) rest - m_end m) by lia.
    rewrite Htake. by rewrite <- !app_assoc.
Qed.

(** C10. An opening line-group tag with no closing tag after it
    contributes no record: the output on the document is the output on
    the text before that opening tag, and it is the output on the document
    cut after the closing tag of its last line-group pair (where the last
    match of the pattern ends), a cut that falls before the unclosed
    opening tag. *)
Theorem extract_data_truncated a b :
  ¬ occurs (close_lit ship_confirm_pattern) b →
  extract_data (a ++ open_lit ship_confirm_pattern ++ b) = extract_data a
  ∧ ∃ kept,
      upto_last_pair ship_confirm_pattern
        (a ++ open_lit ship_confirm_pattern ++ b) kept
      ∧ kept `prefix_of` a
      ∧ kept = take (last_match_end (a ++ open_lit ship_confirm_pattern ++ b))
                    (a ++ open_lit ship_confirm_pattern ++ b)
      ∧ extract_data (a ++ open_lit ship_confirm_pattern ++ b)
        = extract_data kept.
Proof.
  intros Hno.
  assert (∀ x y, a ++ open_lit ship_confirm_pattern ++ b
                 = x ++ close_lit ship_confirm_pattern ++ y →
                 length x + length (close_lit ship_confirm_pattern) ≤ length a)
    as Hin by (intros x y Heq; by eapply close_tag_inside).
  pose proof (spans_finditer_from ship_confirm_pattern 0 a eq_refl) as Hsp.
  destruct (spans_upto _ _ _ Hsp) as (kept & Hup & Hpre & Hk).
  pose proof (spans_app_unclosed _ _ _ _ Hin Hsp) as Hsp'.
  pose proof (upto_app_unclosed _ _ _ _ Hin Hup) as Hup'.
  assert (extract_data (a ++ open_lit ship_confirm_pattern ++ b)
          = extract_data a) as Ha.
  { rewrite !extract_data_blocks.
    by rewrite (line_blocks_spans _ _ Hsp'), (line_blocks_spans _ _ Hsp). }
  split; [done|]. exists kept. split; [done|]. split; [done|]. split.
  - destruct (upto_take_last ship_confirm_pattern _ _ eq_refl Hup' 0)
      as [_ Htake].
    by rewrite Nat.sub_0_r in Htake.
  - rewrite Ha, !extract_data_blocks.
    by rewrite (line_blocks_spans _ _ Hsp), (line_blocks_spans _ _ Hk).
Qed.

Lemma extract_data_truncated_witness :
  ¬ occurs (close_lit ship_confirm_pattern)
      ($"<delivery_id>D7</delivery_id>" ++ serials sg_A)
  ∧ extract_data
      ((doc ++ [newline]) ++ open_lit ship_confirm_pattern
       ++ $"<delivery_id>D7</delivery_id>" ++ serials sg_A)
    = Ok [Record_ $"D2" $"P2" []; Record_ $"D1" $"P1" $"A";
          Record_ $"D1" $"P1" $"B"; Record_ $"D1" $"P1" $"C";
          Record_ [] [] $"A"].
Proof.
  assert (¬ occurs (close_lit ship_confirm_pattern)
            ($"<delivery_id>D7</delivery_id>" ++ serials sg_A)) as Hno
    by (apply find_None; vm_compute; reflexivity).
  split; [done|].
  destruct (extract_data_truncated (doc ++ [newline]) _ Hno) as [-> _].
  vm_compute. reflexivity.
Defined.

Example unclosed_tail_dropped :
  take (last_match_end (doc ++ unclosed_tail)) (doc ++ unclosed_tail) = doc
  ∧ extract_data (doc ++ unclosed_tail) = extract_data doc.
Proof. split; vm_compute; reflexivity. Qed.

(** *** The text of a leaf tag *)

Lemma class_ok_no_newline (g : str) :
  newline ∉ g → forallb (class_ok false) g = true.
Proof.
  intros Hnl. apply forallb_forall. intros c Hc%list_elem_of_In.
  unfold class_ok. simpl. destruct (Ascii.eqb_spec c newline) as [->|]; done.
Qed.

Lemma first_text_span p junk g rest :
  only_at_end (open_lit p) junk →
  only_at_end (close_lit p) g →
  (p_dotall p = false → newline ∉ g) →
  first_text p (junk ++ open_lit p ++ g ++ close_lit p ++ rest) = g.
Proof.
  intros Ho Hc Hnl. unfold first_text, search.
  rewrite search_from_span; [done|done|done|].
  destruct (p_dotall p).
  - by apply forallb_forall.
  - by apply class_ok_no_newline, Hnl.
Qed.

Lemma class_ok_newline (g : str) :
  forallb (class_ok false) g = true → newline ∉ g.
Proof.
  intros Hall Hin%list_elem_of_In.
  pose proof (proj1 (forallb_forall _ _) Hall _ Hin) as H. by vm_compute in H.
Qed.

Lemma search_from_None_here p pos s junk t :
  search_from p pos s = None → s = junk ++ t → match_here p t = None.
Proof.
  intros Hnone ->. revert pos Hnone.
  induction junk as [|c junk IH]; intros pos; rewrite search_from_unfold.
  - cbn [app]. by destruct (match_here p t) as [[g rest]|].
  - cbn [app]. destruct (match_here p (c :: junk ++ t)) as [[g rest]|]; [done|].
    apply IH.
Qed.

(** What [re.search] with a [.] pattern takes. *)
Lemma first_text_leaf p s :
  p_dotall p = false → leaf_text p s (first_text p s).
Proof.
  intros Hd. unfold first_text, search.
  destruct (search_from p 0 s) as [m|] eqn:E.
  - apply search_from_sound in E as (junk & g & rest & -> & -> & Hm & Hnone).
    cbn [from_option]. rewrite group1_match_of.
    apply match_here_sound in Hm as (_ & Hclass & Hend). rewrite Hd in Hclass.
    apply (leaf_found p _ junk g rest); [done|done|by apply class_ok_newline|].
    intros junk' g' rest' Heq Hend' Hlt.
    destruct (decide (newline ∈ g')) as [|Hnl]; [done|exfalso].
    specialize (Hnone _ Hlt). rewrite Heq, drop_app_length in Hnone.
    rewrite match_here_complete in Hnone; [done| |done].
    rewrite Hd. by apply class_ok_no_newline.
  - apply leaf_missing. intros junk g rest Heq Hend.
    destruct (decide (newline ∈ g)) as [|Hnl]; [done|exfalso].
    pose proof (search_from_None_here _ _ _ junk _ E Heq) as Hnone.
    rewrite match_here_complete in Hnone; [done| |done].
    rewrite Hd. by apply class_ok_no_newline.
Qed.

(** The enclosed text of an opening tag is determined by its position. *)
Lemma enclosed_functional lit junk junk' g g' rest rest' (o : str) :
  junk ++ o ++ g ++ lit ++ rest = junk' ++ o ++ g' ++ lit ++ rest' →
  length junk = length junk' →
  only_at_end lit g → only_at_end lit g' → g = g'.
Proof.
  intros Heq Hlen Hg Hg'.
  apply app_inj_1 in Heq as [_ Heq]; [|done].
  apply app_inv_head in Heq.
  pose proof (only_at_end_no_earlier _ _ _ _ _ Hg Heq) as H1.
  symmetry in Heq.
  pose proof (only_at_end_no_earlier _ _ _ _ _ Hg' Heq) as H2.
  apply app_inj_1 in Heq as [? _]; [done|lia].
Qed.

(** The relation determines the text. *)
Lemma leaf_text_functional p s g g' :
  leaf_text p s g → leaf_text p s g' → g = g'.
Proof.
  intros [junk g0 rest Hs Hend Hnl Hleft|Hnone]
         [junk' g0' rest' Hs' Hend' Hnl' Hleft'|Hnone'].
  - destruct (Nat.lt_total (length junk) (length junk')) as [Hlt|[Heq|Hlt]].
    + destruct Hnl. by eapply Hleft'.
    + eapply enclosed_functional; [|done|done|done]. by rewrite <- Hs, <- Hs'.
    + destruct Hnl'. by eapply Hleft.
  - destruct Hnl. by eapply Hnone'.
  - destruct Hnl'. by eapply Hnone.
  - done.
Qed.

Lemma block_records_fields block :
  block_records block
  = map (Record_ (first_text delivery_id_pattern block)
                 (first_text product_id_pattern block))
        (match serial_groups block with
         | [] => [[]]
         | sgs => map (first_text serial_number_pattern) sgs
         end).
Proof.
  unfold block_records. destruct (serial_groups block) as [|sg sgs]; [done|].
  by rewrite map_map.
Qed.

(** C4 does not hold as stated. *)
Lemma newline_text_not_extracted :
  extract_data (line block_broken) = Ok [Record_ [] [] []]
  ∧ extract_data (line block_broken)
    ≠ Ok [Record_ ($"D" ++ [newline] ++ $"1") [] []].
Proof. split; [vm_compute; reflexivity|vm_compute; discriminate]. Qed.

(** C4, amended.  The four inner tag pairs are matched non-greedily,
    each enclosed text ending at the next closing tag.  Only the
    serial-group pair tolerates newlines: the serial groups of a block are
    its successive pairs, whatever they enclose, and each gives one record.
    The delivery id, the product/service id and the serial number are the
    text enclosed by the leftmost opening tag whose next closing tag
    follows with no newline in between, taken verbatim, and the empty
    string when there is no such opening tag; so these fields hold no
    newline, and an enclosed text with a newline is never extracted. *)
Theorem extract_data_leaf_text content pre block post :
  spans ship_confirm_pattern content (pre ++ block :: post) →
  ∃ d p sgs sns,
    extract_data content
    = Ok (flat_map block_records pre ++ map (Record_ d p) sns
          ++ flat_map block_records post)
    ∧ leaf_text delivery_id_pattern block d
    ∧ leaf_text product_id_pattern block p
    ∧ spans serials_pattern block sgs
    ∧ match sgs with
      | [] => sns = [[]]
      | _ => Forall2 (leaf_text serial_number_pattern) sgs sns
      end.
Proof.
  intros Hline.
  exists (first_text delivery_id_pattern block),
         (first_text product_id_pattern block),
         (serial_groups block),
         (match serial_groups block with
          | [] => [[]]
          | sgs => map (first_text serial_number_pattern) sgs
          end).
  split; [by rewrite (extract_data_at _ _ _ _ Hline), block_records_fields|].
  split; [by apply first_text_leaf|]. split; [by apply first_text_leaf|].
  split; [by apply spans_finditer_from|].
  destruct (serial_groups block) as [|sg sgs]; [done|].
  apply Forall2_fmap_r, Forall_Forall2_diag, Forall_forall.
  intros x _. by apply first_text_leaf.
Qed.

Lemma extract_data_leaf_text_witness :
  spans ship_confirm_pattern (line block_relined) ([] ++ block_relined :: [])
  ∧ extract_data (line block_relined) = Ok [Record_ $"b" [] $"S3"]
  ∧ leaf_text delivery_id_pattern block_relined $"b"
  ∧ leaf_text product_id_pattern block_relined []
  ∧ ∃ sg, spans serials_pattern block_relined [sg]
          ∧ leaf_text serial_number_pattern sg $"S3".
Proof.
  assert (spans ship_confirm_pattern (line block_relined)
            ([] ++ block_relined :: []))
    as Hline by (apply spans_compute; [done|vm_compute; reflexivity]).
  assert (extract_data (line block_relined) = Ok [Record_ $"b" [] $"S3"])
    as Hrs by (vm_compute; reflexivity).
  split; [done|]. split; [done|].
  destruct (extract_data_leaf_text _ _ _ _ Hline)
    as (d & p & sgs & sns & Heq & Hd & Hp & Hsp & Hsn).
  rewrite Hrs in Heq. cbn [flat_map app] in Heq. rewrite app_nil_r in Heq.
  destruct sns as [|sn [|? ?]]; try discriminate Heq.
  injection Heq as <- <- <-.
  split; [done|]. split; [done|].
  destruct sgs as [|sg sgs].
  - discriminate Hsn.
  - apply Forall2_cons_1 in Hsn as [Hsg Hnil].
    apply Forall2_nil_inv_r in Hnil as ->. by exists sg.
Defined.

Example later_opening_tag :
  extract_data (line ($"<delivery_id>a" ++ [newline]
                      ++ $"<delivery_id>b</delivery_id>"))
  = Ok [Record_ $"b" [] []].
Proof. vm_compute. reflexivity. Qed.

End claims_extract.

(** ** The table written by [save_to_csv] and read back *)

Section csv.
Import Csv CsvReader Save.

Lemma run_app r a b : run r (a ++ b) = run (run r a) b.
Proof. apply fold_left_app. Qed.

Lemma run_cons r c text : run r (c :: text) = run (step r c) text.
Proof. done. Qed.

Lemma special_false c :
  special c = false →
  Ascii.eqb c comma = false ∧ Ascii.eqb c dquote = false ∧ is_eol c = false.
Proof.
  unfold special, is_eol.
  destruct (Ascii.eqb c comma), (Ascii.eqb c dquote),
    (Ascii.eqb c carriage_return), (Ascii.eqb c newline); simpl; done.
Qed.

Lemma escape_plain f : existsb special f = false → escape f = f.
Proof.
  induction f as [|c f IH]; simpl; [done|].
  intros [Hc Hf]%orb_false_elim. apply special_false in Hc as (_ & -> & _).
  by rewrite IH.
Qed.

(** Plain characters inside an unquoted field. *)
Lemma run_plain rs fs fd f :
  existsb special f = false →
  run (Reader rs fs fd InField) f = Reader rs fs (fd ++ f) InField.
Proof.
  revert fd; induction f as [|c f IH]; intros fd; simpl.
  - by rewrite app_nil_r.
  - intros [Hc Hf]%orb_false_elim. apply special_false in Hc as (Hco & _ & He).
    unfold step; simpl. rewrite He, Hco. unfold add_char; simpl.
    rewrite IH by done. by rewrite <- app_assoc.
Qed.

(** The escaped characters inside a quoted field. *)
Lemma run_escaped rs fs fd f :
  run (Reader rs fs fd InQuotedField) (escape f)
  = Reader rs fs (fd ++ f) InQuotedField.
Proof.
  revert fd; induction f as [|c f IH]; intros fd; simpl.
  - by rewrite app_nil_r.
  - destruct (Ascii.eqb_spec c dquote) as [->|Hne].
    + rewrite !run_cons. unfold step at 2; simpl. unfold step at 1; simpl.
      unfold add_char; simpl. rewrite IH. by rewrite <- app_assoc.
    + rewrite run_cons. unfold step at 1; simpl.
      apply Ascii.eqb_neq in Hne. rewrite Hne. unfold add_char; simpl.
      rewrite IH. by rewrite <- app_assoc.
Qed.

(** A written field up to the point where the reader has taken all its
    characters: the reader is inside the field, or has seen the closing
    quote. *)
Lemma run_write_field rs fs s f :
  at_start s → f ≠ [] ∨ existsb special f = true →
  ∃ s', run (Reader rs fs [] s) (write_field f) = Reader rs fs f s'
        ∧ (s' = InField ∨ s' = QuoteInQuotedField).
Proof.
  intros Hs Hf. unfold write_field.
  destruct (existsb special f) eqn:Hsp.
  - exists QuoteInQuotedField. split; [|by right].
    rewrite run_cons.
    assert (step (Reader rs fs [] s) dquote = Reader rs fs [] InQuotedField)
      as -> by (by destruct Hs as [-> | ->]).
    rewrite run_app, run_escaped. done.
  - exists InField. split; [|by left].
    rewrite escape_plain by done.
    destruct f as [|c f]; [by destruct Hf|].
    simpl in Hsp. apply orb_false_elim in Hsp as [Hc Hsp].
    apply special_false in Hc as (Hco & Hq & He).
    rewrite run_cons.
    assert (step (Reader rs fs [] s) c = Reader rs fs [c] InField) as ->.
    { destruct Hs as [-> | ->]; unfold step, start_record, start_field; simpl;
        by rewrite He, Hq, Hco. }
    by rewrite run_plain.
Qed.

Lemma write_field_empty : write_field [] = [].
Proof. done. Qed.

(** A field followed by the delimiter. *)
Lemma run_field_comma rs fs s f text :
  at_start s →
  run (Reader rs fs [] s) (write_field f ++ comma :: text)
  = run (Reader rs (fs ++ [f]) [] StartField) text.
Proof.
  intros Hs. destruct (decide (f = [])) as [->|Hne].
  - rewrite write_field_empty. simpl. by destruct Hs as [-> | ->].
  - destruct (run_write_field rs fs s f Hs (or_introl Hne)) as (s' & Hrun & Hs').
    rewrite run_app, Hrun, run_cons. by destruct Hs' as [-> | ->].
Qed.

(** The last field of a record followed by the line terminator. *)
Lemma run_field_eol rs fs s f text :
  s = StartField ∨ (s = StartRecord ∧ (f ≠ [] ∨ existsb special f = true)) →
  run (Reader rs fs [] s) (write_field f ++ lineterminator ++ text)
  = run (Reader (rs ++ [fs ++ [f]]) [] [] StartRecord) text.
Proof.
  intros Hs.
  destruct (decide (f ≠ [] ∨ existsb special f = true)) as [Hf|Hf].
  - assert (at_start s) as Hst by (destruct Hs as [->|[-> _]]; [by left|by right]).
    destruct (run_write_field rs fs s f Hst Hf) as (s' & Hrun & Hs').
    rewrite run_app, Hrun. simpl. by destruct Hs' as [-> | ->].
  - destruct Hs as [->|[_ ?]]; [|done].
    destruct f; [|destruct Hf; by left]. done.
Qed.

Lemma run_join rs fs f fields text :
  run (Reader rs fs [] StartField) (join (f :: fields) ++ lineterminator ++ text)
  = run (Reader (rs ++ [fs ++ f :: fields]) [] [] StartRecord) text.
Proof.
  revert fs f; induction fields as [|f' fields IH]; intros fs f.
  - simpl join. apply run_field_eol. by left.
  - change (join (f :: f' :: fields))
      with (write_field f ++ comma :: join (f' :: fields)).
    rewrite <- app_assoc, <- app_comm_cons, run_field_comma by by left.
    rewrite IH. by rewrite <- app_assoc.
Qed.

(** One written row is read back as that row. *)
Lemma run_writerow rs row text :
  run (Reader rs [] [] StartRecord) (writerow row ++ text)
  = run (Reader (rs ++ [row]) [] [] StartRecord) text.
Proof.
  destruct row as [|f [|f' fields]].
  - done.
  - destruct f as [|c f]; [reflexivity|].
    unfold writerow. simpl join. rewrite <- app_assoc.
    rewrite run_field_eol; [done|]. right. split; [done|]. by left.
  - assert (writerow (f :: f' :: fields)
            = (write_field f ++ comma :: join (f' :: fields)) ++ lineterminator)
      as -> by (by destruct f).
    rewrite <- !app_assoc, <- !app_comm_cons.
    rewrite run_field_comma by by right. apply run_join.
Qed.

Lemma run_writerows rs table :
  run (Reader rs [] [] StartRecord) (concat (map writerow table))
  = Reader (rs ++ table) [] [] StartRecord.
Proof.
  revert rs; induction table as [|row table IH]; intros rs; simpl.
  - by rewrite app_nil_r.
  - rewrite run_writerow, IH. by rewrite <- app_assoc.
Qed.

(** Every table is read back from its written form. *)
Lemma read_write table : read (concat (map writerow table)) = table.
Proof. unfold read, init. by rewrite run_writerows. Qed.

Example header_row :
  writerow fieldnames
  = $"delivery_id,product_service_id,serial_number" ++ lineterminator.
Proof. reflexivity. Qed.

(** A field is quoted only when it holds a delimiter, a quote or a line
    terminator character; a quote inside it is doubled. *)
Example minimal_quoting :
  write_field $"SN 1" = $"SN 1"
  ∧ write_field $"a,b" = [dquote] ++ $"a,b" ++ [dquote]
  ∧ write_field ($"6" ++ [dquote] ++ $" rack")
    = [dquote] ++ $"6" ++ [dquote; dquote] ++ $" rack" ++ [dquote].
Proof. repeat split; reflexivity. Qed.

End csv.

(** ** The file system *)

Section file_system.
Import Fs.

Lemma stat_snoc p x σ : stat (p ++ [x]) σ = σ !! (p ++ [x]).
Proof. by destruct p. Qed.



Lemma dirname_snoc p x : dirname (p ++ [x]) = p.
Proof. apply removelast_last. Qed.

Lemma prefix_snoc_inv (a d : path) x :
  a `prefix_of` d ++ [x] → a = d ++ [x] ∨ a `prefix_of` d.
Proof.
  intros [k Hk]. induction k as [|y k' _] using rev_ind.
  - left. by rewrite app_nil_r in Hk.
  - right. rewrite app_assoc in Hk. apply app_inj_tail in Hk as [-> _].
    by exists k'.
Qed.

Lemma tree_prefix σ d a :
  tree σ → is_Some (stat d σ) → a `prefix_of` d → a ≠ d → stat a σ = Some Dir.
Proof.
  intros Ht. revert a. induction d as [|x d IH] using rev_ind; intros a Hd Ha Hne.
  - apply prefix_nil_inv in Ha. done.
  - apply prefix_snoc_inv in Ha as [->|Ha]; [done|].
    rewrite stat_snoc in Hd. apply Ht in Hd.
    destruct (decide (a = d)) as [->|Hne']; [done|].
    apply IH; [by rewrite Hd|done|done].
Qed.



Lemma makedirs_snoc d x σ :
  makedirs (d ++ [x]) σ
  = match (if bool_decide (d ≠ []) && negb (bool_decide (is_Some (stat d σ)))
           then io_try (makedirs d) ignore_exists σ
           else (σ, Ok ())) with
    | (σ1, Ok _) => mkdir (d ++ [x]) σ1
    | (σ1, Raise e) => (σ1, Raise e)
    end.
Proof.
  unfold makedirs. rewrite rev_unit. cbn [makedirs_rev].
  unfold mbind, io_mbind, io_bind, exists_. rewrite rev_involutive.
  assert (bool_decide (rev d ≠ []) = bool_decide (d ≠ [])) as ->.
  { apply bool_decide_ext. split; intros H Hd; apply H.
    - by rewrite Hd.
    - by rewrite <- (rev_involutive d), Hd. }
  change (rev (x :: rev d)) with (rev (rev d) ++ [x]). rewrite rev_involutive.
  destruct (bool_decide (d ≠ []) && negb (bool_decide (is_Some (stat d σ))));
    [|done].
  fold (makedirs d).
  by destruct (io_try _ _ σ) as [σ1 [[]|e]].
Qed.


Lemma tree_below_file σ a t d :
  tree σ → stat a σ = Some (File t) → a `prefix_of` d → a ≠ d →
  stat d σ = None.
Proof.
  intros Ht Ha Hpre Hne. destruct (stat d σ) as [n|] eqn:Hd; [|done].
  rewrite (tree_prefix σ d a) in Ha; [done|done|by rewrite Hd|done|done].
Qed.

(** [makedirs] below a regular file fails and creates nothing. *)
Lemma makedirs_barred σ a t d :
  tree σ → stat a σ = Some (File t) → a `prefix_of` d → a ≠ d →
  makedirs d σ = (σ, Raise (os_error NotADirectoryError)).
Proof.
  intros Ht Ha. induction d as [|x d IH] using rev_ind; intros Hpre Hne.
  { apply prefix_nil_inv in Hpre. done. }
  apply prefix_snoc_inv in Hpre as [->|Hpre]; [done|].
  assert (σ !! (d ++ [x]) = None) as Hx.
  { rewrite <- stat_snoc. apply (tree_below_file σ a t); [done|done| |done].
    destruct Hpre as [k ->]. exists (k ++ [x]). by rewrite app_assoc. }
  rewrite makedirs_snoc. destruct (decide (a = d)) as [->|Hne'].
  - rewrite Ha, (bool_decide_eq_true_2 (is_Some _)) by eauto.
    rewrite andb_false_r. unfold mkdir.
    by rewrite stat_snoc, Hx, dirname_snoc, Ha.
  - rewrite (tree_below_file σ a t d) by done.
    assert (d ≠ []) as Hd.
    { intros ->. apply prefix_nil_inv in Hpre. done. }
    rewrite (bool_decide_eq_true_2 _ Hd).
    rewrite (bool_decide_eq_false_2 (is_Some None)) by (by intros [? ?]).
    cbn [andb negb]. unfold io_try. by rewrite IH.
Qed.


End file_system.

(** ** The claims on files *)

Section claims_files.
Import Re EDIExtractor Fs Spec Examples.

(** C5. Round trip: when the records extracted from a document are saved
    with [save_to_csv], the file that was written reads back as the
    header row followed by one row per record, with the fields of the
    records in their order. *)
Theorem save_to_csv_roundtrip content results output_file σ σ' :
  extract_data content = Ok results →
  save_to_csv results output_file σ = (σ', Ok ()) →
  ∃ text,
    stat output_file σ' = Some (File text)
    ∧ CsvReader.read text = fieldnames :: map dict_to_list results.
Proof.
  intros _ Hsave. exists (csv_text results). split.
  - unfold save_to_csv, write_text in Hsave.
    destruct (stat (dirname output_file) σ) as [[|t]|]; try done.
    destruct output_file as [|x p] using rev_ind; [done|].
    rewrite stat_snoc in *.
    destruct (σ !! (p ++ [x])) as [[|t]|]; try done;
      injection Hsave as <-; apply lookup_insert_eq.
  - unfold csv_text. rewrite <- map_map.
    apply (read_write (fieldnames :: map dict_to_list results)).
Qed.

Lemma save_to_csv_roundtrip_witness :
  extract_data doc
  = Ok [Record_ $"D2" $"P2" []; Record_ $"D1" $"P1" $"A";
        Record_ $"D1" $"P1" $"B"; Record_ $"D1" $"P1" $"C";
        Record_ [] [] $"A"]
  ∧ save_to_csv [Record_ $"D2" $"P2" []; Record_ $"D1" $"P1" $"A";
                 Record_ $"D1" $"P1" $"B"; Record_ $"D1" $"P1" $"C";
                 Record_ [] [] $"A"]
                ["out.csv"%string] ∅
    = (<[["out.csv"%string] :=
           File (csv_text [Record_ $"D2" $"P2" []; Record_ $"D1" $"P1" $"A";
                           Record_ $"D1" $"P1" $"B"; Record_ $"D1" $"P1" $"C";
                           Record_ [] [] $"A"])]> ∅,
       Ok ())
  ∧ ∃ text,
      stat ["out.csv"%string]
           (<[["out.csv"%string] :=
                File (csv_text [Record_ $"D2" $"P2" []; Record_ $"D1" $"P1" $"A";
                                Record_ $"D1" $"P1" $"B"; Record_ $"D1" $"P1" $"C";
                                Record_ [] [] $"A"])]> ∅)
      = Some (File text)
      ∧ CsvReader.read text
        = [[$"delivery_id"; $"product_service_id"; $"serial_number"];
           [$"D2"; $"P2"; []]; [$"D1"; $"P1"; $"A"]; [$"D1"; $"P1"; $"B"];
           [$"D1"; $"P1"; $"C"]; [[]; []; $"A"]].
Proof.
  assert (extract_data doc
          = Ok [Record_ $"D2" $"P2" []; Record_ $"D1" $"P1" $"A";
                Record_ $"D1" $"P1" $"B"; Record_ $"D1" $"P1" $"C";
                Record_ [] [] $"A"]) as Hrs by (vm_compute; reflexivity).
  split; [done|]. split; [reflexivity|].
  apply (save_to_csv_roundtrip doc _ ["out.csv"%string] ∅ _ Hrs).
  reflexivity.
Defined.

(** The steps of [EDIExtractorApp.save_to_csv] after its two guards. *)
Lemma app_save_body results output_file σ :
  results ≠ [] → output_file ≠ [] →
  EDIExtractorApp.save_to_csv results output_file σ
  = match (if bool_decide (dirname output_file ≠ [])
              && negb (bool_decide (is_Some (stat (dirname output_file) σ)))
           then makedirs (dirname output_file) σ
           else (σ, Ok ())) with
    | (σ1, Ok _) =>
        match write_text output_file (csv_text results) σ1 with
        | (σ2, Ok _) => (σ2, EDIExtractorApp.SavedTo output_file)
        | (σ2, Raise e) => (σ2, EDIExtractorApp.FailedToSave e)
        end
    | (σ1, Raise e) => (σ1, EDIExtractorApp.FailedToSave e)
    end.
Proof.
  intros Hres Hout. unfold EDIExtractorApp.save_to_csv.
  rewrite (bool_decide_eq_false_2 _ Hres), (bool_decide_eq_false_2 _ Hout).
  unfold mbind, io_mbind, io_bind, exists_, save_to_csv.
  destruct (bool_decide (dirname output_file ≠ [])
            && negb (bool_decide (is_Some (stat (dirname output_file) σ)))).
  - by destruct (makedirs (dirname output_file) σ) as [σ1 [[]|e]].
  - done.
Qed.

(** With a missing parent directory the caller runs [os.makedirs]. *)
Lemma app_save_missing_parent results output_file σ :
  results ≠ [] → stat (dirname output_file) σ = None →
  EDIExtractorApp.save_to_csv results output_file σ
  = match makedirs (dirname output_file) σ with
    | (σ1, Ok _) =>
        match write_text output_file (csv_text results) σ1 with
        | (σ2, Ok _) => (σ2, EDIExtractorApp.SavedTo output_file)
        | (σ2, Raise e) => (σ2, EDIExtractorApp.FailedToSave e)
        end
    | (σ1, Raise e) => (σ1, EDIExtractorApp.FailedToSave e)
    end.
Proof.
  intros Hres Hmiss.
  assert (dirname output_file ≠ []) as Hd by (by intros Hd; rewrite Hd in Hmiss).
  assert (output_file ≠ []) as Hout by (by intros ->).
  rewrite app_save_body by done.
  rewrite Hmiss, (bool_decide_eq_true_2 _ Hd).
  by rewrite (bool_decide_eq_false_2 (is_Some None)) by (by intros [? ?]).
Qed.




Lemma disk_tree : tree disk.
Proof.
  intros p x [n Hn]. unfold disk in Hn.
  destruct (decide (["notes.txt"%string] = p ++ [x])) as [Heq|Hne].
  - destruct p as [|y [|z p]]; try done.
  - rewrite lookup_insert_ne in Hn by done.
    destruct (decide (["archive"%string] = p ++ [x])) as [Heq|Hne'].
    + destruct p as [|y [|z p]]; try done.
    + rewrite lookup_insert_ne in Hn by done. by rewrite lookup_empty in Hn.
Qed.

Example app_save_to_csv_file_in_the_way :
  EDIExtractorApp.save_to_csv [Record_ $"D1" $"P1" $"A"]
    ["notes.txt"; "2024"; "result.csv"]%string disk
  = (disk, EDIExtractorApp.FailedToSave (os_error NotADirectoryError)).
Proof.
  rewrite app_save_missing_parent; [|done|by vm_compute].
  rewrite (makedirs_barred disk ["notes.txt"%string] $"keep me"); [done| | | |].
  - exact disk_tree.
  - by vm_compute.
  - by exists ["2024"%string].
  - done.
Qed.

Example app_save_to_csv_no_data :
  EDIExtractorApp.save_to_csv [] ["out"; "2024"; "result.csv"]%string ∅
  = (∅, EDIExtractorApp.NoData).
Proof. reflexivity. Qed.

(** C7. When reading or decoding the file fails, [extract_from_file] fails
    with an exception whose message holds the path and the message of the
    cause and whose context is the cause, and returns no record;
    otherwise it returns what [extract_data] returns on the text read. *)
Theorem extract_from_file_result (read_text : str → result str) filename :
  match read_text filename with
  | Raise cause =>
      extract_from_file read_text filename
      = Raise (ExnDuring ExceptionClass
                 ($"Error processing file " ++ filename ++ $": "
                  ++ exn_str cause)
                 cause)
  | Ok content =>
      ∃ rs, extract_data content = Ok rs
            ∧ extract_from_file read_text filename = Ok rs
  end.
Proof.
  unfold extract_from_file. destruct (read_text filename) as [content|cause].
  - exists (flat_map block_records (line_blocks content)).
    split; [apply extract_data_blocks|].
    by rewrite bind_Ok, extract_data_blocks.
  - done.
Qed.

Example extract_from_file_missing :
  extract_from_file files $"missing.xml"
  = Raise (ExnDuring ExceptionClass
             ($"Error processing file missing.xml: "
              ++ $"[Errno 2] No such file or directory: 'missing.xml'")
             (Exn FileNotFoundError
                $"[Errno 2] No such file or directory: 'missing.xml'")).
Proof. vm_compute. reflexivity. Qed.

Example extract_from_file_not_utf8 :
  extract_from_file files $"latin1.xml"
  = Raise (ExnDuring ExceptionClass
             ($"Error processing file latin1.xml: "
              ++ $"'utf-8' codec can't decode byte 0xe9 in position 3")
             (Exn UnicodeDecodeError
                $"'utf-8' codec can't decode byte 0xe9 in position 3")).
Proof. vm_compute. reflexivity. Qed.

Example extract_from_file_readable :
  extract_from_file files $"ship.xml" = extract_data doc.
Proof. vm_compute. reflexivity. Qed.

End claims_files.
